(** * VTIL-Core: offset splitting and the optimizer pass interface

    A shallow embedding of

    - [vtil::symbolic::aux::split_offset]
      (VTIL-SymEx/expressions/auxiliaries.cpp), and
    - [vtil::optimizer::apply_pass] with the combinators [combine_pass],
      [conditional_pass], [exhaust_pass] and [nop_pass]
      (VTIL-Compiler/common/interface.hpp),

    together with the properties the specification states about them.

    Integers of a fixed width are [Z] or [N] with the wrap-around written
    out. Calls that write the routine are functions from the memory to an
    outcome and the memory they leave. Recursion and loops that the C++
    code does not bound take a budget [fuel]. *)

From stdpp Require Import base gmap sets list strings.
From Stdlib Require Import ZArith Lia.

Local Open Scope Z_scope.

(** ** Machine integers *)

Module Int64.

Definition min_signed : Z := - 2 ^ 63.
Definition max_signed : Z := 2 ^ 63 - 1.

(** Reduction of a mathematical integer into the range of [int64_t]
    (two's complement wrap-around). *)
Definition wrap (x : Z) : Z := (x + 2 ^ 63) mod 2 ^ 64 - 2 ^ 63.

(** [a * b] on [int64_t]. *)
Definition mul (a b : Z) : Z := wrap (a * b).

(** [- a] on [int64_t]. *)
Definition neg (a : Z) : Z := wrap (- a).

Definition in_range (x : Z) : Prop := min_signed <= x <= max_signed.

End Int64.

(** ** Symbolic expressions *)

(** Modelled from the spec: [math::operator_id] is declared outside the
    two source files; section 3 only speaks of "operators" applied to one
    or two operands. A representative set of arithmetic and bitwise
    operators is taken. *)
Inductive operator_id : Type :=
  | op_negate
  | op_bitwise_not
  | op_add
  | op_subtract
  | op_multiply
  | op_bitwise_and
  | op_bitwise_or
  | op_bitwise_xor
  | op_shift_left
  | op_shift_right.

Global Instance operator_id_eq_dec : EqDecision operator_id.
Proof. solve_decision. Defined.

(** Modelled from the spec: whether the matcher may swap the operands of
    an operator (section 4.1: addition is commutative, subtraction is
    not). *)
Definition is_commutative (op : operator_id) : bool :=
  match op with
  | op_add | op_multiply => true
  | op_bitwise_and | op_bitwise_or | op_bitwise_xor => true
  | _ => false
  end.

(** Modelled from the spec: the expression node of section 3, a tagged
    union over constants (bit width and value), symbolic leaves, unary and
    binary operator nodes. The class [expression] itself is declared
    outside the two source files. *)
Inductive expression : Type :=
  | e_constant (bit_count : N) (value : Z)
  | e_variable (uid : string)
  | e_unary (op : operator_id) (rhs : expression)
  | e_binary (op : operator_id) (lhs rhs : expression).

Global Instance expression_eq_dec : EqDecision expression.
Proof. solve_decision. Defined.

Definition is_constant (e : expression) : bool :=
  match e with e_constant _ _ => true | _ => false end.

(** Modelled from the spec: [expression::get<true>()], the constant-value
    extraction of section 6, as a signed integer of the native width;
    empty when the expression is not a constant. *)
Definition get_signed (e : expression) : option Z :=
  match e with
  | e_constant _ v => Some (Int64.wrap v)
  | _ => None
  end.

Declare Scope expr_scope.
Delimit Scope expr_scope with expr.
Bind Scope expr_scope with expression.
Notation "a + b" := (e_binary op_add a b) : expr_scope.
Notation "a - b" := (e_binary op_subtract a b) : expr_scope.

(** ** Directives *)

(** Modelled from the spec: the filter a wildcard may carry
    (section 3, "must be a constant"). *)
Inductive matching_type : Type :=
  | match_any
  | match_constant.

Global Instance matching_type_eq_dec : EqDecision matching_type.
Proof. solve_decision. Defined.

(** Modelled from the spec: [directive::instance], a pattern with the
    node shape of an expression whose leaves may be wildcards. *)
Inductive instance : Type :=
  | d_constant (value : Z)
  | d_wildcard (id : string) (mtype : matching_type)
  | d_unary (op : operator_id) (rhs : instance)
  | d_binary (op : operator_id) (lhs rhs : instance).

Global Instance instance_eq_dec : EqDecision instance.
Proof. solve_decision. Defined.

Declare Scope directive_scope.
Delimit Scope directive_scope with dir.
Bind Scope directive_scope with instance.
Notation "a + b" := (d_binary op_add a b) : directive_scope.
Notation "a - b" := (d_binary op_subtract a b) : directive_scope.

(** The two wildcards [split_offset] uses: [A] binds anything, [U] binds
    constants only. *)
Definition A : instance := d_wildcard "A" match_any.
Definition U : instance := d_wildcard "U" match_constant.

(** Modelled from the spec: [symbol_table_t], the binding set of section 3,
    from wildcard identifier to the bound sub-expression. *)
Abbreviation symbol_table_t := (gmap string expression).

(** Modelled from the spec: [symbol_table_t::translate] on a wildcard
    looks its binding up; the reference is null when there is none. *)
Definition translate (tbl : symbol_table_t) (d : instance)
  : option expression :=
  match d with
  | d_wildcard id _ => tbl !! id
  | _ => None
  end.

Definition filter_accepts (mtype : matching_type) (e : expression) : bool :=
  match mtype with
  | match_any => true
  | match_constant => is_constant e
  end.

(** Modelled from the spec: unification of a pattern against an
    expression (section 4.1). Every way the pattern unifies extends [tbl]
    into one table of the result; operands in source order come first, the
    swapped operands of a commutative operator after them. *)
Fixpoint unify (dir : instance) (exp : expression) (tbl : symbol_table_t)
  : list symbol_table_t :=
  match dir with
  | d_constant v =>
      match exp with
      | e_constant _ v' => if decide (v = v') then [tbl] else []
      | _ => []
      end
  | d_wildcard id mtype =>
      if filter_accepts mtype exp then
        match tbl !! id with
        | None => [<[id := exp]> tbl]
        | Some bound => if decide (bound = exp) then [tbl] else []
        end
      else []
  | d_unary op p =>
      match exp with
      | e_unary op' e => if decide (op = op') then unify p e tbl else []
      | _ => []
      end
  | d_binary op p q =>
      match exp with
      | e_binary op' l r =>
          if decide (op = op') then
            (unify p l tbl ≫= unify q r)
            ++ (if is_commutative op then unify p r tbl ≫= unify q l else [])
          else []
      | _ => []
      end
  end.

(** Modelled from the spec: [fast_match( &results, &directive, exp )].
    A successful attempt adds its tables to [results] and answers true; a
    failed attempt discards its table and leaves [results] as it was. *)
Definition fast_match (results : list symbol_table_t) (dir : instance)
    (exp : expression) : bool * list symbol_table_t :=
  let found := unify dir exp ∅ in
  (bool_decide (found ≠ []), results ++ found).

(** ** [split_offset] *)

Section SplitOffset.

(** The matcher is a parameter of the loop: [split_offset] only relies on
    its answer and on the tables it leaves in [results]. *)
Variable matcher :
  list symbol_table_t → instance → expression → bool * list symbol_table_t.

(** The [return] inside the loop of [split_offset]: the first table of
    [results] translates [A] and [U], and the constant bound to [U] is
    multiplied by the sign of the directive. Dereferencing an empty
    vector, a null reference or an empty optional is [None]. *)
Definition extract_offset (results : list symbol_table_t) (sign : Z)
  : option (expression * Z) :=
  tbl ← head results;
  base ← translate tbl A;
  u ← translate tbl U;
  c ← get_signed u;
  Some (base, Int64.mul c sign).

(** The [for] loop over the directive table, [results] being shared by
    all iterations. *)
Fixpoint split_offset_loop (directives : list (instance * Z))
    (results : list symbol_table_t) (exp : expression)
  : option (expression * Z) :=
  match directives with
  | [] => Some (exp, 0)
  | (directive, sign) :: rest =>
      let '(matched, results) := matcher results directive exp in
      if matched then extract_offset results sign
      else split_offset_loop rest results exp
  end.

Definition split_offset_with (directives : list (instance * Z))
    (exp : expression) : option (expression * Z) :=
  split_offset_loop directives [] exp.

(** [results] after the matcher has been tried on each directive of
    [directives] in turn and has failed on all of them; [None] as soon as
    one of them matches. *)
Fixpoint all_fail (directives : list (instance * Z))
    (results : list symbol_table_t) (exp : expression)
  : option (list symbol_table_t) :=
  match directives with
  | [] => Some results
  | (directive, _) :: rest =>
      let '(matched, results) := matcher results directive exp in
      if matched then None else all_fail rest results exp
  end.

End SplitOffset.

(** The static table of [split_offset]. *)
Definition directives : list (instance * Z) :=
  [ ((A + U)%dir, 1); ((A - U)%dir, -1) ].

Definition split_offset (exp : expression) : option (expression * Z) :=
  split_offset_with fast_match directives exp.

(** The contract of section 4.2, written after its three sentences: a
    constant added on either side is split off with its value, a constant
    subtracted on the right is split off negated (on [int64_t]), and
    anything else is returned with a zero offset. *)
Definition split_offset_contract (exp : expression) : expression * Z :=
  match exp with
  | e_binary op_add l r =>
      match get_signed r, get_signed l with
      | Some c, _ => (l, c)
      | None, Some c => (r, c)
      | None, None => (exp, 0)
      end
  | e_binary op_subtract l r =>
      match get_signed r with
      | Some c => (l, Int64.neg c)
      | None => (exp, 0)
      end
  | _ => (exp, 0)
  end.

(** * The optimizer pass interface *)

(** [size_t]: the applied counts are added modulo [2^64]. *)
Module Size.

Definition add (a b : N) : N := ((a + b) mod 2 ^ 64)%N.

End Size.

(** Pass execution order. *)
Inductive execution_order : Type :=
  | custom
  | serial
  | serial_bf
  | serial_df
  | parallel
  | parallel_bf
  | parallel_df.

Global Instance execution_order_eq_dec : EqDecision execution_order.
Proof. solve_decision. Defined.

(** How a call ends: it returns, it is stopped by a failed [fassert], or
    the recursion and iteration budget [fuel] of the embedding is used up
    (the C++ code has no such budget: a call that is [OutOfFuel] for every
    budget does not return). *)
Inductive outcome (R : Type) : Type :=
  | Done (r : R)
  | Fatal
  | OutOfFuel.
Arguments Done {R} r.
Arguments Fatal {R}.
Arguments OutOfFuel {R}.

(** An entry of [routine::get_depth_ordered_list]. *)
Record depth_placement (basic_block : Type) : Type := {
  level_dependency : N;
  block : basic_block;
}.
Arguments level_dependency {basic_block} _.
Arguments block {basic_block} _.

(** A call that may write the memory [state]. *)
Definition computation (state R : Type) : Type := state → outcome (R * state).

Definition ret {state R : Type} (r : R) : computation state R :=
  λ st, Done (r, st).

Definition bind {state R Q : Type} (m : computation state R)
    (k : R → computation state Q) : computation state Q :=
  λ st,
    match m st with
    | Done (r, st') => k r st'
    | Fatal => Fatal
    | OutOfFuel => OutOfFuel
    end.

Notation "'let*' x ':=' m 'in' k" := (bind m (λ x, k))
  (at level 10, x name, m at level 100, k at level 200).

(** The classes [routine] and [basic_block] are declared outside the two
    source files. [state] is the memory a pass reads and writes (blocks,
    links, instructions, analysis contexts); [basic_block] and [routine]
    are the pointers handed around, and the members the engine reads are
    functions of the pointer and the memory. [routine::for_each] and
    [transform_parallel], also defined elsewhere, run a worker, which
    updates the counter [n] it captured and the memory, over the blocks
    they are given. *)
Class routine_members (state basic_block routine : Type) : Type := {
  next : basic_block → state → list basic_block;
  prev : basic_block → state → list basic_block;
  entry_point : routine → state → basic_block;
  get_exits : routine → state → list basic_block;
  explored_blocks : routine → state → list basic_block;
  get_depth_ordered_list :
    routine → bool → state → list (depth_placement basic_block);
  for_each :
    routine → (basic_block → N → computation state N) → N
    → computation state N;
  transform_parallel :
    list basic_block → (basic_block → N → computation state N) → N
    → computation state N;
}.

Section Optimizer.

Context {state basic_block routine : Type}.
Context `{Countable basic_block}.
Context {members : routine_members state basic_block routine}.

Local Abbreviation comp := (computation state).

(** A range-based [for] whose body updates the variables [acc] captured by
    reference. *)
Fixpoint for_range {X Acc : Type} (range : list X)
    (body : X → Acc → comp Acc) (acc : Acc) : comp Acc :=
  match range with
  | [] => ret acc
  | x :: range => let* acc := body x acc in for_range range body acc
  end.

(** Modelled from the spec: [fassert], the assertion of section 7 that is
    fatal when its condition is false. The macro is defined outside the
    two source files. *)
Definition fassert (cond : bool) : comp unit :=
  if cond then ret () else λ _, Fatal.

(** The single-block transform of a pass: [pass( blk, xblock )]. *)
Definition pass_fn : Type := basic_block → bool → comp N.

(** The recursion helper [rec] of [apply_pass]. [visited] and the counter
    [n] of the worker are captured by reference. The links of [blk] are
    read when its loop starts; [fuel] bounds the depth of the recursion. *)
Fixpoint rec (fuel : nat) (worker : basic_block → N → comp N)
    (blk : basic_block) (fwd : bool) (acc : gset basic_block * N)
  : comp (gset basic_block * N) :=
  match fuel with
  | O => λ _, OutOfFuel
  | S fuel =>
      let '(visited, n) := acc in
      if decide (blk ∈ visited) then ret (visited, n)
      else
        let visited := {[blk]} ∪ visited in
        λ st,
          (let* acc := for_range (if fwd then next blk st else prev blk st)
                    (λ link acc, rec fuel worker link fwd acc) (visited, n) in
           let* n := worker blk acc.2 in
           ret (acc.1, n)) st
  end.

(** The segmentation loop of the [parallel_bf] and [parallel_df] orders:
    the maximal runs of consecutive entries with one [level_dependency]. *)
Definition segments (entries : list (depth_placement basic_block))
  : list (list (depth_placement basic_block)) :=
  foldr (λ entry acc,
           match acc with
           | (e :: seg) :: rest =>
               if decide (level_dependency entry = level_dependency e)
               then (entry :: e :: seg) :: rest
               else [entry] :: acc
           | _ => [entry] :: acc
           end) [] entries.

(** The lambda [worker] of [apply_pass]: [n += opt->pass( block, true )]. *)
Definition worker (opt : pass_fn) (blk : basic_block) (n : N) : comp N :=
  let* k := opt blk true in ret (Size.add n k).

(** [apply_pass( rtn, opt )] for a pass of order [exec_order] whose
    single-block transform is [opt]. *)
Definition apply_pass (fuel : nat) (exec_order : execution_order)
    (opt : pass_fn) (rtn : routine) : comp N :=
  let worker := worker opt in
  let n : N := 0%N in
  match exec_order with
  | custom =>
      let* _ := fassert (bool_decide (exec_order ≠ custom)) in
      ret n
  | serial =>
      for_each rtn worker n
  | serial_bf | serial_df =>
      let visited : gset basic_block := ∅ in
      if decide (exec_order = serial_df) then
        λ st,
          (let* acc := rec fuel worker (entry_point rtn st) true (visited, n) in
           ret acc.2) st
      else
        λ st,
          (let* acc := for_range (get_exits rtn st)
                    (λ exit acc, rec fuel worker exit false acc) (visited, n) in
           ret acc.2) st
  | parallel =>
      λ st, transform_parallel (explored_blocks rtn st) worker n st
  | parallel_bf | parallel_df =>
      λ st,
        let entries :=
          get_depth_ordered_list rtn (bool_decide (exec_order = parallel_bf)) st in
        for_range (segments entries)
          (λ segment n, transform_parallel (block <$> segment) worker n) n st
  end.

(** The generic pass interface: the declared order, the two transforms
    and the name. *)
Record pass_interface : Type := {
  exec_order : execution_order;
  pass : pass_fn;
  xpass : routine → comp N;
  name : string;
}.

(** A pass that only implements [pass] and keeps the [xpass] of
    [pass_interface], which hands it to [apply_pass]. *)
Definition plain_pass (fuel : nat) (order : execution_order) (opt : pass_fn)
    (nm : string) : pass_interface :=
  {| exec_order := order;
     pass := opt;
     xpass := apply_pass fuel order opt;
     name := nm |}.

(** [combine_pass<T1, Tx...>]; with an empty [Tx] it is [T1] itself. *)
Fixpoint combine_pass (T1 : pass_interface) (Tx : list pass_interface)
  : pass_interface :=
  match Tx with
  | [] => T1
  | T2 :: Tx =>
      let rest := combine_pass T2 Tx in
      {| exec_order := custom;
         pass := λ blk xblock,
           let* n := pass T1 blk xblock in
           let* m := pass rest blk xblock in
           ret (Size.add n m);
         xpass := λ rtn,
           let* n := xpass T1 rtn in
           let* m := xpass rest rtn in
           ret (Size.add n m);
         name := "(" +:+ name T1 +:+ " + " +:+ name rest +:+ ")" |}
  end.

(** [conditional_pass<T1, Tx...>], [Tx] being [T2 :: Tx] here since
    [combine_pass<>] of no pass does not exist. *)
Definition conditional_pass (T1 T2 : pass_interface) (Tx : list pass_interface)
  : pass_interface :=
  let rest := combine_pass T2 Tx in
  {| exec_order := custom;
     pass := λ blk xblock,
       if negb xblock then
         let* n := pass T1 blk false in
         if decide (n ≠ 0%N) then
           let* m := pass rest blk false in ret (Size.add n m)
         else ret n
       else pass T1 blk true;
     xpass := λ rtn,
       let* n := xpass T1 rtn in
       if decide (n ≠ 0%N) then
         let* m := xpass rest rtn in ret (Size.add n m)
       else ret n;
     name := "conditional{" +:+ name T1 +:+ " => " +:+ name rest +:+ "}" |}.

(** The loop of [exhaust_pass]: [while ( size_t n = round() ) cnt += n;],
    at most [fuel] rounds. *)
Fixpoint exhaust_loop (fuel : nat) (round : comp N) (cnt : N)
  : comp N :=
  match fuel with
  | O => λ _, OutOfFuel
  | S fuel =>
      let* n := round in
      if decide (n ≠ 0%N) then exhaust_loop fuel round (Size.add cnt n)
      else ret cnt
  end.

(** [exhaust_pass<Tx...>], over the passes [T1 :: Tx]. *)
Definition exhaust_pass (fuel : nat) (T1 : pass_interface)
    (Tx : list pass_interface) : pass_interface :=
  let all := combine_pass T1 Tx in
  {| exec_order := custom;
     pass := λ blk xblock, exhaust_loop fuel (pass all blk xblock) 0%N;
     xpass := λ rtn, exhaust_loop fuel (xpass all rtn) 0%N;
     name := "exhaust{" +:+ name all +:+ "}" |}.

(** [nop_pass]. *)
Definition nop_pass : pass_interface :=
  {| exec_order := custom;
     pass := λ blk xblock, ret 0%N;
     xpass := λ rtn, ret 0%N;
     name := "no-op" |}.

(** The rounds of a loop body: [round] run [k] times in a row, with the
    counts it reported. *)
Fixpoint rounds (k : nat) (round : comp N) : comp (list N) :=
  match k with
  | O => ret []
  | S k => let* n := round in let* ns := rounds k round in ret (n :: ns)
  end.

(** What the specification says of the conditional combinator, for either
    value of [xblock]: the first pass runs, and the others run when it
    reported a count above zero. *)
Definition conditional_contract (T1 T2 : pass_interface)
    (Tx : list pass_interface) (blk : basic_block) (xblock : bool) : comp N :=
  let* n := pass T1 blk xblock in
  if decide (n ≠ 0%N) then
    let* m := pass (combine_pass T2 Tx) blk xblock in ret (Size.add n m)
  else ret n.

(** The blocks a worker is invoked on, one after the other, the counter
    starting at [n]. *)
Definition invoke_on (opt : pass_fn) (blocks : list basic_block) (n : N)
  : comp N :=
  for_range blocks (worker opt) n.

(** The links [rec] follows in the memory [st]. *)
Definition links_in (fwd : bool) (st : state)
  : basic_block → list basic_block :=
  λ blk, if fwd then next blk st else prev blk st.

(** The pass leaves the links of every block as they are. *)
Definition keeps_links (opt : pass_fn) : Prop :=
  ∀ blk st k st',
    opt blk true st = Done (k, st') →
    ∀ b, next b st' = next b st ∧ prev b st' = prev b st.

(** The pass returns on every block, in every memory. *)
Definition always_returns (opt : pass_fn) : Prop :=
  ∀ blk st, ∃ r, opt blk true st = Done r.

End Optimizer.

(** ** The order of a serial walk

    The walk of [rec] over links that do not change, without the passes:
    the blocks in the order in which the worker is invoked on them. *)

Section Walk.

Context {basic_block : Type} `{Countable basic_block}.

Fixpoint walk_all
    (step : basic_block → gset basic_block
            → option (gset basic_block * list basic_block))
    (blocks : list basic_block) (visited : gset basic_block)
  : option (gset basic_block * list basic_block) :=
  match blocks with
  | [] => Some (visited, [])
  | blk :: blocks =>
      r1 ← step blk visited;
      r2 ← walk_all step blocks r1.1;
      Some (r2.1, r1.2 ++ r2.2)
  end.

Fixpoint walk (fuel : nat) (links : basic_block → list basic_block)
    (blk : basic_block) (visited : gset basic_block)
  : option (gset basic_block * list basic_block) :=
  match fuel with
  | O => None
  | S fuel =>
      if decide (blk ∈ visited) then Some (visited, [])
      else
        r ← walk_all (walk fuel links) (links blk) ({[blk]} ∪ visited);
        Some (r.1, r.2 ++ [blk])
  end.

(** [blk] can be reached from one of [starts] along [links]. *)
Definition reachable (links : basic_block → list basic_block)
    (starts : list basic_block) (blk : basic_block) : Prop :=
  ∃ s, s ∈ starts ∧ rtc (λ x y, y ∈ links x) s blk.

End Walk.

(** The sum of a list of counts on [size_t]. *)
Definition size_sum (ns : list N) : N := foldl Size.add 0%N ns.

(** * Concrete passes and routines *)

Module Examples.

(** Three blocks in a chain [blk_A → blk_B → blk_C], and a fourth block
    [blk_D] for the routine with a cycle. *)
Definition blk_A : nat := 0%nat.
Definition blk_B : nat := 1%nat.
Definition blk_C : nat := 2%nat.
Definition blk_D : nat := 3%nat.

(** A pass that reports [1] and leaves its mark in the memory, here the
    list of the marks left so far. *)
Definition mark (k : nat) : @pass_interface (list nat) nat unit :=
  {| exec_order := custom;
     pass := λ blk xblock st, Done (1%N, st ++ [k]);
     xpass := λ rtn st, Done (1%N, st ++ [k]);
     name := "mark" |}.

(** A pass that reports [1] every time. *)
Definition always_one : @pass_interface unit nat unit :=
  {| exec_order := custom;
     pass := λ blk xblock, ret 1%N;
     xpass := λ rtn, ret 1%N;
     name := "always-one" |}.

(** A pass over a memory that holds one number: it reports the number and
    decrements it, down to zero. *)
Definition countdown : @pass_interface N nat unit :=
  {| exec_order := custom;
     pass := λ blk xblock st, Done (st, N.pred st);
     xpass := λ rtn st, Done (st, N.pred st);
     name := "countdown" |}.

(** A pass that reports [1] and appends the block it is given to the
    memory, which is the list of the blocks passed so far. *)
Definition log_block : @pass_fn (list nat) nat :=
  λ blk xblock st, Done (1%N, st ++ [blk]).

(** The members of a routine whose links do not depend on the memory;
    [for_each] and [transform_parallel] go through the blocks in order. *)
Definition fixed_routine {state : Type} (succs preds : nat → list nat)
    (entry : nat) (exits blocks : list nat) : routine_members state nat unit :=
  {| next := λ blk _, succs blk;
     prev := λ blk _, preds blk;
     entry_point := λ _ _, entry;
     get_exits := λ _ _, exits;
     explored_blocks := λ _ _, blocks;
     get_depth_ordered_list := λ _ _ _, [];
     for_each := λ _ worker n, for_range blocks worker n;
     transform_parallel := λ range worker n, for_range range worker n |}.

(** The chain [blk_A → blk_B → blk_C]. *)
Definition chain {state : Type} : routine_members state nat unit :=
  fixed_routine
    (λ blk, match blk with 0 => [blk_B] | 1 => [blk_C] | _ => [] end)%nat
    (λ blk, match blk with 1 => [blk_A] | 2 => [blk_B] | _ => [] end)%nat
    blk_A [blk_C] [blk_A; blk_B; blk_C].

(** A routine with a cycle: [blk_A → blk_B → blk_C → blk_A], and the exit
    [blk_D] after [blk_C]. *)
Definition cyclic {state : Type} : routine_members state nat unit :=
  fixed_routine
    (λ blk, match blk with
            | 0 => [blk_B] | 1 => [blk_C] | 2 => [blk_A; blk_D] | _ => []
            end)%nat
    (λ blk, match blk with
            | 0 => [blk_C] | 1 => [blk_A] | 2 => [blk_B] | 3 => [blk_C] | _ => []
            end)%nat
    blk_A [blk_D] [blk_A; blk_B; blk_C; blk_D].

End Examples.

(** * Further parts of the pass interface *)

(** The count of passes run one after the other by [combine_pass]: that
    of the pass itself when there is one pass, the sum on [size_t]
    otherwise. *)
Definition combined_count (ns : list N) : N :=
  match ns with
  | [n] => n
  | _ => size_sum ns
  end.

Section Wrappers.

Context {state basic_block routine : Type}.
Context `{Countable basic_block}.
Context {members : routine_members state basic_block routine}.

Local Abbreviation comp := (computation state).

(** [zero_pass<T>::pass]: [T::pass( blk, xblock ); return 0;], over the
    single-block transform of [T]. *)
Definition zero_pass (T_pass : @pass_fn state basic_block)
  : @pass_fn state basic_block :=
  λ blk xblock, let* _ := T_pass blk xblock in ret 0%N.

(** Calls made one after the other, with the counts they report. *)
Fixpoint collect (calls : list (comp N)) : comp (list N) :=
  match calls with
  | [] => ret []
  | call :: calls =>
      let* n := call in let* ns := collect calls in ret (n :: ns)
  end.

(** Calls made one after the other, each count added to the count of the
    calls after it: the shape of [combine_pass<T1, Tx...>]. *)
Fixpoint chain (first : comp N) (others : list (comp N)) : comp N :=
  match others with
  | [] => first
  | second :: others =>
      let* n := first in
      let* m := chain second others in
      ret (Size.add n m)
  end.

(** The inner [while] of the segmentation loop: [it_end] moves over the
    entries whose [level_dependency] is that of [it_begin]; the entries it
    moved over and the entries left. *)
Fixpoint advance (level : N) (entries : list (depth_placement basic_block))
  : list (depth_placement basic_block) * list (depth_placement basic_block) :=
  match entries with
  | [] => ([], [])
  | entry :: rest =>
      if decide (level_dependency entry = level) then
        let '(segment, tail) := advance level rest in
        (entry :: segment, tail)
      else ([], entries)
  end.

(** The outer [while] of the segmentation loop, as it is written: the
    ranges [make_range( it_begin, it_end )] queued one after the other.
    [fuel] bounds the number of ranges. *)
Fixpoint segmentation_loop (fuel : nat)
    (entries : list (depth_placement basic_block))
  : list (list (depth_placement basic_block)) :=
  match fuel with
  | O => []
  | S fuel =>
      match entries with
      | [] => []
      | it_begin :: _ =>
          let '(segment, tail) :=
            advance (level_dependency it_begin) entries in
          segment :: segmentation_loop fuel tail
      end
  end.

(** [order] passes [y] before [x]. *)
Definition passed_before (order : list basic_block) (y x : basic_block)
  : Prop :=
  ∃ o1 o2, order = o1 ++ x :: o2 ∧ y ∈ o1.

(** No block can be reached from itself along one link or more. *)
Definition acyclic (links : basic_block → list basic_block) : Prop :=
  ∀ blk, ¬ tc (λ x y, y ∈ links x) blk blk.

(** A scheduler that runs the tasks of [transform_parallel] one after the
    other, in the order of the range. *)
Definition runs_in_order : Prop :=
  ∀ (range : list basic_block) (task : basic_block → N → comp N) n st,
    transform_parallel range task n st = for_range range task n st.

End Wrappers.

Module MoreExamples.

(** A routine that never leaves: [blk_A → blk_B → blk_A], no exit. *)
Definition looping {state : Type} : routine_members state nat unit :=
  Examples.fixed_routine
    (λ blk, match blk with
            | 0 => [Examples.blk_B] | 1 => [Examples.blk_A] | _ => []
            end)%nat
    (λ blk, match blk with
            | 0 => [Examples.blk_B] | 1 => [Examples.blk_A] | _ => []
            end)%nat
    Examples.blk_A [] [Examples.blk_A; Examples.blk_B].

(** A diamond: [blk_A → blk_B → blk_D] and [blk_A → blk_C → blk_D]. *)
Definition diamond {state : Type} : routine_members state nat unit :=
  Examples.fixed_routine
    (λ blk, match blk with
            | 0 => [Examples.blk_B; Examples.blk_C]
            | 1 => [Examples.blk_D]
            | 2 => [Examples.blk_D]
            | _ => []
            end)%nat
    (λ blk, match blk with
            | 1 => [Examples.blk_A]
            | 2 => [Examples.blk_A]
            | 3 => [Examples.blk_B; Examples.blk_C]
            | _ => []
            end)%nat
    Examples.blk_A [Examples.blk_D]
    [Examples.blk_A; Examples.blk_B; Examples.blk_C; Examples.blk_D].

(** The chain with a depth-ordered list of two levels: [blk_A] and
    [blk_B] on level [0], [blk_C] on level [1]; the scheduler runs the
    tasks in order. *)
Definition leveled {state : Type} : routine_members state nat unit :=
  {| next := next (routine_members := Examples.chain);
     prev := prev (routine_members := Examples.chain);
     entry_point := λ _ _, Examples.blk_A;
     get_exits := λ _ _, [Examples.blk_C];
     explored_blocks := λ _ _,
       [Examples.blk_A; Examples.blk_B; Examples.blk_C];
     get_depth_ordered_list := λ _ _ _,
       [ {| level_dependency := 0; block := Examples.blk_A |};
         {| level_dependency := 0; block := Examples.blk_B |};
         {| level_dependency := 1; block := Examples.blk_C |} ];
     for_each := λ _ worker n,
       for_range [Examples.blk_A; Examples.blk_B; Examples.blk_C] worker n;
     transform_parallel := λ range worker n, for_range range worker n |}.

(** A routine whose memory holds, besides the list of the blocks passed so
    far, whether the link [blk_C → blk_D] has been cut:
    [blk_A → blk_B], [blk_A → blk_C] and, until it is cut,
    [blk_C → blk_D]. *)
Definition cutting : routine_members (bool * list nat) nat unit :=
  {| next := λ blk (st : bool * list nat),
       match blk with
       | 0%nat => [Examples.blk_B; Examples.blk_C]
       | 2%nat => if st.1 then [] else [Examples.blk_D]
       | _ => []
       end;
     prev := λ blk (st : bool * list nat),
       match blk with
       | 1%nat => [Examples.blk_A]
       | 2%nat => [Examples.blk_A]
       | 3%nat => if st.1 then [] else [Examples.blk_C]
       | _ => []
       end;
     entry_point := λ _ _, Examples.blk_A;
     get_exits := λ _ (st : bool * list nat),
       if st.1 then [Examples.blk_B; Examples.blk_C; Examples.blk_D]
       else [Examples.blk_B; Examples.blk_D];
     explored_blocks := λ _ _,
       [Examples.blk_A; Examples.blk_B; Examples.blk_C; Examples.blk_D];
     get_depth_ordered_list := λ _ _ _, [];
     for_each := λ _ worker n,
       for_range
         [Examples.blk_A; Examples.blk_B; Examples.blk_C; Examples.blk_D]
         worker n;
     transform_parallel := λ range worker n, for_range range worker n |}.

(** A pass that reports [1], logs the block it is given and, on [blk_B],
    cuts the link [blk_C → blk_D]. *)
Definition cut_link : @pass_fn (bool * list nat) nat :=
  λ blk xblock (st : bool * list nat),
    Done (1%N, (st.1 || bool_decide (blk = Examples.blk_B), st.2 ++ [blk])).

(** A pass that reports the count [k] and changes nothing. *)
Definition reports (k : N) : @pass_interface unit nat unit :=
  {| exec_order := custom;
     pass := λ blk xblock, ret k;
     xpass := λ rtn, ret k;
     name := "reports" |}.

(** A pass that changes nothing and reports zero. *)
Definition idle : @pass_fn (list nat) nat := λ blk xblock, ret 0%N.

End MoreExamples.

(** ** [apply_each]

    [apply_each] is computed on types. A pass type is a class or a
    template applied to types; the five templates [apply_each] goes
    through are told apart from every other template. *)
Inductive template : Type :=
  | spawn_state_t
  | exhaust_pass_t
  | combine_pass_t
  | specialize_pass_t
  | conditional_pass_t
  | other_template (id : string).

Global Instance template_eq_dec : EqDecision template.
Proof. solve_decision. Defined.

#[warnings="-register-all"]
Inductive pass_type : Type :=
  | class_type (id : string)
  | template_id (t : template) (args : list pass_type).

Definition is_compound (t : template) : bool :=
  match t with
  | other_template _ => false
  | _ => true
  end.

(** [apply_each<modifier, compound>], the modifier being a template other
    than the five compound ones: the parts of a compound are modified one
    by one, [modifier<compound>] is left as it is, and any other type
    [T] becomes [modifier<T>]. *)
Fixpoint apply_each (modifier : string) (compound : pass_type) : pass_type :=
  match compound with
  | class_type _ => template_id (other_template modifier) [compound]
  | template_id t parts =>
      if is_compound t then template_id t (map (apply_each modifier) parts)
      else if decide (t = other_template modifier ∧ length parts = 1%nat)
           then compound
           else template_id (other_template modifier) [compound]
  end.

(** * Properties *)

(** ** Arithmetic on [int64_t] *)

Module Int64Facts.

Lemma wrap_in_range x : Int64.in_range (Int64.wrap x).
Proof.
  unfold Int64.in_range, Int64.wrap, Int64.min_signed, Int64.max_signed.
  pose proof (Z.mod_pos_bound (x + 2 ^ 63) (2 ^ 64)). lia.
Qed.

Lemma wrap_small x : Int64.in_range x → Int64.wrap x = x.
Proof.
  unfold Int64.in_range, Int64.wrap, Int64.min_signed, Int64.max_signed.
  intros Hx. rewrite Z.mod_small; lia.
Qed.

Lemma wrap_wrap x : Int64.wrap (Int64.wrap x) = Int64.wrap x.
Proof. apply wrap_small, wrap_in_range. Qed.

Lemma mul_one c : Int64.mul (Int64.wrap c) 1 = Int64.wrap c.
Proof. unfold Int64.mul. rewrite Z.mul_1_r. apply wrap_wrap. Qed.

Lemma mul_minus_one c : Int64.mul c (-1) = Int64.neg c.
Proof. unfold Int64.mul, Int64.neg. f_equal. lia. Qed.

(** Negation on [int64_t] is the negation of [Z] for every value but the
    least one. *)
Lemma neg_opp c :
  Int64.in_range c → c ≠ Int64.min_signed → Int64.neg c = - c.
Proof.
  unfold Int64.neg. intros Hc Hmin. apply wrap_small.
  unfold Int64.in_range, Int64.min_signed, Int64.max_signed in *. lia.
Qed.

End Int64Facts.

(** ** The matcher on the two directives of [split_offset] *)

Lemma get_signed_is_constant e :
  is_Some (get_signed e) ↔ is_constant e = true.
Proof. destruct e; simpl; split; (done || eauto || by intros []). Qed.

Lemma get_signed_None e : get_signed e = None ↔ is_constant e = false.
Proof. destruct e; simpl; split; done. Qed.

Lemma unify_A_U l r :
  unify A l ∅ ≫= unify U r
  = if is_constant r then [<["U" := r]> (<["A" := l]> ∅)] else [].
Proof.
  simpl. rewrite lookup_empty. simpl.
  destruct (is_constant r); simpl; [|done].
  rewrite lookup_insert_ne by done. by rewrite lookup_empty.
Qed.

Lemma unify_add l r :
  unify (A + U) (l + r) ∅
  = (if is_constant r then [<["U" := r]> (<["A" := l]> ∅)] else [])
    ++ (if is_constant l then [<["U" := l]> (<["A" := r]> ∅)] else []).
Proof.
  change (unify (A + U) (l + r) ∅)
    with ((unify A l ∅ ≫= unify U r) ++ (unify A r ∅ ≫= unify U l)).
  by rewrite !unify_A_U.
Qed.

Lemma unify_sub l r :
  unify (A - U) (l - r) ∅
  = if is_constant r then [<["U" := r]> (<["A" := l]> ∅)] else [].
Proof.
  change (unify (A - U) (l - r) ∅) with ((unify A l ∅ ≫= unify U r) ++ []).
  by rewrite unify_A_U, app_nil_r.
Qed.

Lemma unify_binary_other op p q exp :
  (∀ l r, exp ≠ e_binary op l r) → unify (d_binary op p q) exp ∅ = [].
Proof.
  intros Hne. destruct exp as [| | |op' l r]; simpl; try done.
  case_decide; [subst; by destruct (Hne l r)|done].
Qed.

Lemma unify_sub_mismatch l r : unify (A - U) (l + r) ∅ = [].
Proof. done. Qed.

Lemma unify_add_mismatch l r : unify (A + U) (l - r) ∅ = [].
Proof. done. Qed.

Lemma extract_offset_bound base u c tbls sign :
  get_signed u = Some c →
  extract_offset (<["U" := u]> (<["A" := base]> ∅) :: tbls) sign
  = Some (base, Int64.mul c sign).
Proof.
  intros Hu. unfold extract_offset. simpl.
  rewrite (lookup_insert_ne _ "U" "A") by done.
  rewrite !lookup_insert_eq. simpl. by rewrite Hu.
Qed.

Lemma split_offset_add l r :
  split_offset (l + r)
  = match get_signed r, get_signed l with
    | Some c, _ => Some (l, c)
    | None, Some c => Some (r, c)
    | None, None => Some ((l + r)%expr, 0)
    end.
Proof.
  unfold split_offset, split_offset_with, directives, split_offset_loop.
  unfold fast_match.
  rewrite unify_add, unify_sub_mismatch by done. simpl.
  destruct r as [bits v| | |]; simpl.
  - rewrite (extract_offset_bound l (e_constant bits v) (Int64.wrap v)) by done.
    by rewrite Int64Facts.mul_one.
  - destruct l as [bits v| | |]; simpl; [|done..].
    rewrite (extract_offset_bound _ (e_constant bits v) (Int64.wrap v)) by done.
    by rewrite Int64Facts.mul_one.
  - destruct l as [bits v| | |]; simpl; [|done..].
    rewrite (extract_offset_bound _ (e_constant bits v) (Int64.wrap v)) by done.
    by rewrite Int64Facts.mul_one.
  - destruct l as [bits v| | |]; simpl; [|done..].
    rewrite (extract_offset_bound _ (e_constant bits v) (Int64.wrap v)) by done.
    by rewrite Int64Facts.mul_one.
Qed.

Lemma split_offset_sub l r :
  split_offset (l - r)
  = match get_signed r with
    | Some c => Some (l, Int64.neg c)
    | None => Some ((l - r)%expr, 0)
    end.
Proof.
  unfold split_offset, split_offset_with, directives, split_offset_loop.
  unfold fast_match.
  rewrite unify_sub, unify_add_mismatch by done. simpl.
  destruct r as [bits v| | |]; simpl; [|done..].
  rewrite (extract_offset_bound l (e_constant bits v) (Int64.wrap v)) by done.
  by rewrite Int64Facts.mul_minus_one.
Qed.

Lemma split_offset_other exp :
  (∀ l r, exp ≠ (l + r)%expr) → (∀ l r, exp ≠ (l - r)%expr) →
  split_offset exp = Some (exp, 0).
Proof.
  intros Hadd Hsub.
  unfold split_offset, split_offset_with, directives, split_offset_loop.
  unfold fast_match.
  unfold A, U. by rewrite !unify_binary_other.
Qed.

(** C1. [split_offset] never fails, and its result is the one section 4.2
    describes: [(base, c)] for [base + c] (the constant on either side),
    [(base, -c)] for [base - c], the negation being that of [int64_t], and
    [(E, 0)] for every other expression. *)
Theorem split_offset_correct (exp : expression) :
  split_offset exp = Some (split_offset_contract exp).
Proof.
  destruct exp as [bits v|uid|op e|op l r];
    try (by apply split_offset_other).
  destruct op; try (by apply split_offset_other); simpl.
  - rewrite split_offset_add. by destruct (get_signed r), (get_signed l).
  - rewrite split_offset_sub. by destruct (get_signed r).
Qed.


(** ** Priority among directives *)

Lemma split_offset_loop_first_match matcher pre d s post exp
    results0 results results' :
  all_fail matcher pre results0 exp = Some results →
  matcher results d exp = (true, results') →
  split_offset_loop matcher (pre ++ (d, s) :: post) results0 exp
  = extract_offset results' s.
Proof.
  revert results0. induction pre as [|[d0 s0] pre IH]; intros results0; simpl.
  - intros [= ->] ->. done.
  - destruct (matcher results0 d0 exp) as [[] results1]; [done|]. apply IH.
Qed.

(** C3. Whatever the matcher and whatever the directive table, the loop of
    [split_offset] answers through the first directive, in the order of
    the table, on which the matcher succeeds: when it fails on every
    directive of [pre] and succeeds on [d], the result is read off the
    tables that attempt left, with the sign of [d]. Nothing is asked of
    the matcher on [post], and the result does not mention [post]: the
    directives after the first match play no part, even where they would
    match as well. The table [(A+U, +1); (A-U, -1)] is the instance
    [pre = []], [d = A+U], [post = [(A-U, -1)]]. *)
Theorem split_offset_first_match
    (matcher : list symbol_table_t → instance → expression
               → bool * list symbol_table_t)
    (pre post : list (instance * Z)) (d : instance) (s : Z)
    (exp : expression) (results results' : list symbol_table_t) :
  all_fail matcher pre [] exp = Some results →
  matcher results d exp = (true, results') →
  split_offset_with matcher (pre ++ (d, s) :: post) exp
  = extract_offset results' s.
Proof. apply split_offset_loop_first_match. Qed.

(** A table in which the directive after [A+U] matches [X + 4] as well
    ([U+A], through the swapped operands) and would give the offset [-4]:
    the answer is that of [A+U]. *)
Lemma split_offset_first_match_witness :
  split_offset_with fast_match
    ([((A - U)%dir, -1)] ++ ((A + U)%dir, 1) :: [((U + A)%dir, -1)])
    (e_variable "X" + e_constant 64 4)
  = Some (e_variable "X", 4)
  ∧ split_offset_with fast_match [((U + A)%dir, -1)]
      (e_variable "X" + e_constant 64 4)
    = Some (e_variable "X", -4).
Proof.
  split; [|reflexivity].
  rewrite (split_offset_first_match fast_match
             [((A - U)%dir, -1)] [((U + A)%dir, -1)] (A + U)%dir 1
             (e_variable "X" + e_constant 64 4) []
             [<["U" := e_constant 64 4]> (<["A" := e_variable "X"]> ∅)]).
  - reflexivity.
  - reflexivity.
  - reflexivity.
Defined.

(** ** Commutativity *)

(** C7. A constant added on the right or on the left of a symbolic leaf is
    split off with its value, here [4]; a constant subtracted on the right
    is split off negated, while a subtraction with the constant on the
    left is not matched by [A-U] and is returned unchanged. *)
Theorem split_offset_commutative (uid : string) (bits : N) :
  let X := e_variable uid in
  let four := e_constant bits 4 in
  split_offset (X + four) = Some (X, 4)
  ∧ split_offset (four + X) = Some (X, 4)
  ∧ split_offset (X - four) = Some (X, -4)
  ∧ fst (fast_match [] (A - U) (four - X)) = false
  ∧ split_offset (four - X) = Some ((four - X)%expr, 0).
Proof.
  intros X four. rewrite !split_offset_add, !split_offset_sub.
  repeat split.
Qed.

(** ** Pass combinators *)

Section Combinators.

Context {state basic_block routine : Type}.
Context `{Countable basic_block}.
Context {members : routine_members state basic_block routine}.

Local Abbreviation pass_t := (@pass_interface state basic_block routine).
Implicit Types (Tx : list pass_t).
Implicit Types (blk : basic_block) (rtn : routine) (st : state).

(** C4, as amended. With cross-block exploration off, the single-block
    transform of the conditional combinator runs the first pass on the
    block; when that pass reports zero nothing else runs and zero is
    returned with the memory the first pass left; when it reports a count
    above zero the other passes run on that memory and the sum of the two
    counts (on [size_t]) is returned. *)
Theorem conditional_pass_local (T1 T2 : pass_t) Tx blk st :
  pass (conditional_pass T1 T2 Tx) blk false st
  = match pass T1 blk false st with
    | Done (n, st1) =>
        if decide (n = 0%N) then Done (0%N, st1)
        else
          match pass (combine_pass T2 Tx) blk false st1 with
          | Done (m, st2) => Done (Size.add n m, st2)
          | Fatal => Fatal
          | OutOfFuel => OutOfFuel
          end
    | Fatal => Fatal
    | OutOfFuel => OutOfFuel
    end.
Proof.
  simpl. unfold bind.
  destruct (pass T1 blk false st) as [[n st1]| |]; [|done..].
  destruct (decide (n = 0%N)) as [->|Hn].
  - by rewrite decide_False by (by intros ?).
  - by rewrite decide_True.
Qed.

(** C10. With cross-block exploration on, the single-block transform of
    the conditional combinator is that of its first pass: same count, same
    memory, whatever the count is and whatever the other passes are
    (replacing them changes nothing). *)
Theorem conditional_pass_xblock (T1 T2 : pass_t) Tx blk st :
  pass (conditional_pass T1 T2 Tx) blk true st = pass T1 blk true st
  ∧ ∀ (T2' : pass_t) Tx',
      pass (conditional_pass T1 T2' Tx') blk true st
      = pass (conditional_pass T1 T2 Tx) blk true st.
Proof.
  assert (∀ (T : pass_t) Ts,
            pass (conditional_pass T1 T Ts) blk true st = pass T1 blk true st)
    as Hfirst.
  { intros T Ts. unfold conditional_pass. simpl. reflexivity. }
  split; [apply Hfirst|].
  intros T2' Tx'. by rewrite !Hfirst.
Qed.

(** C5. A pass of order [custom] handed to [apply_pass] fails the
    assertion, for every routine and memory: no count is returned. The
    [xpass] of a pass that declares [custom] and keeps the generic [xpass]
    does the same. *)
Theorem apply_pass_custom_fatal (fuel : nat) (opt : pass_fn) (nm : string)
    rtn st :
  apply_pass fuel custom opt rtn st = Fatal
  ∧ xpass (plain_pass fuel custom opt nm) rtn st = Fatal.
Proof. split; reflexivity. Qed.

(** C9. The no-op pass reports zero on every routine and on every block,
    and the memory, hence every block, link and instruction in it, is
    the one it was given. *)
Theorem nop_pass_unchanged rtn blk (xblock : bool) st :
  xpass (nop_pass : pass_t) rtn st = Done (0%N, st)
  ∧ pass (nop_pass : pass_t) blk xblock st = Done (0%N, st).
Proof. split; reflexivity. Qed.

(** ** The exhaustive loop *)

Lemma rounds_S k (round : computation state N) st :
  rounds (S k) round st
  = match round st with
    | Done (n, st1) =>
        match rounds k round st1 with
        | Done (ns, st2) => Done (n :: ns, st2)
        | Fatal => Fatal
        | OutOfFuel => OutOfFuel
        end
    | Fatal => Fatal
    | OutOfFuel => OutOfFuel
    end.
Proof.
  simpl. unfold bind. destruct (round st) as [[n st1]| |]; [|done..].
  by destruct (rounds k round st1) as [[ns st2]| |].
Qed.

(** The loop returns exactly when the rounds it runs report counts
    [ns ++ [0]] with no zero in [ns], within the budget; it then returns
    the counts of [ns] added to [cnt], and the memory the last round
    left. *)
Lemma exhaust_loop_done fuel (round : computation state N) cnt st total st' :
  exhaust_loop fuel round cnt st = Done (total, st')
  ↔ ∃ ns : list N,
      (length ns < fuel)%nat
      ∧ Forall (λ n, n ≠ 0%N) ns
      ∧ rounds (S (length ns)) round st = Done (ns ++ [0%N], st')
      ∧ total = foldl Size.add cnt ns.
Proof.
  revert cnt st. induction fuel as [|fuel IH]; intros cnt st.
  { split; [done|]. intros (ns & Hlen & _). lia. }
  cbn [exhaust_loop]. unfold bind at 1.
  destruct (round st) as [[n st1]| |] eqn:Hround.
  - destruct (decide (n ≠ 0%N)) as [Hn|Hn].
    + rewrite IH. split.
      * intros (ns & Hlen & Hnz & Hrounds & ->).
        exists (n :: ns). split_and!; [simpl; lia|by constructor| |done].
        change (length (n :: ns)) with (S (length ns)).
        rewrite rounds_S, Hround, Hrounds. done.
      * intros (ns & Hlen & Hnz & Hrounds & ->).
        rewrite rounds_S, Hround in Hrounds.
        destruct ns as [|n' ns].
        { simpl in Hrounds. unfold ret in Hrounds. congruence. }
        change (length (n' :: ns)) with (S (length ns)) in Hrounds.
        destruct (rounds (S (length ns)) round st1) as [[ms st2]| |] eqn:Hrest;
          [|done..].
        injection Hrounds as -> -> ->.
        exists ns. split_and!; [simpl in Hlen; lia|by inversion Hnz|done|done].
    + apply dec_stable in Hn. subst n. unfold ret. split.
      * intros [= <- <-]. exists []. split_and!; [simpl; lia|done| |done].
        rewrite rounds_S, Hround. done.
      * intros (ns & Hlen & Hnz & Hrounds & ->).
        rewrite rounds_S, Hround in Hrounds.
        destruct ns as [|n' ns].
        { simpl in Hrounds. unfold ret in Hrounds. by injection Hrounds as ->. }
        destruct (rounds (length (n' :: ns)) round st1) as [[ms st2]| |];
          [|done..].
        injection Hrounds as <- _ _. by inversion Hnz.
  - split; [done|]. intros (ns & _ & _ & Hrounds & _).
    by rewrite rounds_S, Hround in Hrounds.
  - split; [done|]. intros (ns & _ & _ & Hrounds & _).
    by rewrite rounds_S, Hround in Hrounds.
Qed.

(** C6, as amended. The exhaust combinator returns, on a block or on a
    routine, exactly when the successive rounds of its pass sequence come
    to a round that reports zero (the budget [fuel] allowing for that
    many rounds); the total it then returns is the sum, on [size_t], of
    the counts the rounds reported, the last round it ran reported zero
    and no round before it did. *)
Theorem exhaust_pass_rounds (fuel : nat) (T1 : pass_t) Tx blk (xblock : bool)
    rtn st (total : N) st' :
  (pass (exhaust_pass fuel T1 Tx) blk xblock st = Done (total, st')
   ↔ ∃ ns : list N,
       (length ns < fuel)%nat
       ∧ Forall (λ n, n ≠ 0%N) ns
       ∧ rounds (S (length ns)) (pass (combine_pass T1 Tx) blk xblock) st
         = Done (ns ++ [0%N], st')
       ∧ total = size_sum ns)
  ∧ (xpass (exhaust_pass fuel T1 Tx) rtn st = Done (total, st')
     ↔ ∃ ns : list N,
         (length ns < fuel)%nat
         ∧ Forall (λ n, n ≠ 0%N) ns
         ∧ rounds (S (length ns)) (xpass (combine_pass T1 Tx) rtn) st
           = Done (ns ++ [0%N], st')
         ∧ total = size_sum ns).
Proof. split; apply exhaust_loop_done. Qed.

End Combinators.

(** The total of the rounds is their sum modulo [2^64]. *)
Lemma size_sum_mod (ns : list N) :
  size_sum ns = (foldr N.add 0 ns mod 2 ^ 64)%N.
Proof.
  unfold size_sum.
  assert (Hgen : ∀ acc, foldl Size.add (acc mod 2 ^ 64)%N ns
                        = ((acc + foldr N.add 0 ns) mod 2 ^ 64)%N).
  { induction ns as [|n ns IH]; intros acc; simpl.
    - by rewrite N.add_0_r.
    - change (Size.add (acc mod 2 ^ 64) n)%N
        with (((acc mod 2 ^ 64) + n) mod 2 ^ 64)%N.
      rewrite IH, <- N.add_assoc, N.Div0.add_mod_idemp_l. done. }
  apply (Hgen 0%N).
Qed.

(** The exhaust combinator over the countdown pass, started with [2] in
    the memory: the rounds report [2], [1] and [0], and [3] is returned. *)
Lemma exhaust_pass_rounds_witness :
  pass (exhaust_pass 5 Examples.countdown []) Examples.blk_A false 2%N
  = Done (3%N, 0%N).
Proof.
  apply (proj1 (exhaust_pass_rounds 5 Examples.countdown [] Examples.blk_A
                  false tt 2%N 3%N 0%N)).
  exists [2%N; 1%N]. split_and!.
  - simpl. lia.
  - repeat constructor; done.
  - reflexivity.
  - reflexivity.
Defined.

(** The exhaust combinator over a pass that reports [1] every time never
    returns, on a block or on a routine, whatever the budget. *)
Lemma exhaust_pass_diverges :
  ¬ (∃ (fuel : nat) (r : N * unit),
       pass (exhaust_pass fuel Examples.always_one []) Examples.blk_A false tt
       = Done r)
  ∧ ¬ (∃ (fuel : nat) (r : N * unit),
         xpass (exhaust_pass fuel Examples.always_one []) tt tt = Done r).
Proof.
  assert (Hloop : ∀ fuel cnt,
            exhaust_loop fuel (ret 1%N : computation unit N) cnt tt = OutOfFuel).
  { induction fuel as [|fuel IH]; intros cnt; [done|]. simpl. apply IH. }
  split; intros (fuel & r & Hr); simpl in Hr; by rewrite Hloop in Hr.
Qed.

(** With cross-block exploration on, the conditional combinator over two
    marking passes runs the first one only, although it reported [1]: the
    count is [1] and the second mark is missing. *)
Lemma conditional_pass_xblock_skips_rest :
  pass (conditional_pass (Examples.mark 1) (Examples.mark 2) [])
    Examples.blk_A true []
  = Done (1%N, [1%nat])
  ∧ conditional_contract (Examples.mark 1) (Examples.mark 2) []
      Examples.blk_A true []
    = Done (2%N, [1%nat; 2%nat])
  ∧ pass (conditional_pass (Examples.mark 1) (Examples.mark 2) [])
      Examples.blk_A true []
    ≠ conditional_contract (Examples.mark 1) (Examples.mark 2) []
        Examples.blk_A true [].
Proof. split_and!; [reflexivity|reflexivity|discriminate]. Qed.

(** ** The serial walk visits what can be reached, once *)

Set Warnings "-clear-no-such-hyp".

Section WalkFacts.

Context {basic_block : Type} `{Countable basic_block}.

Variable links : basic_block → list basic_block.

(** The blocks of the routine: a finite set closed under [links]. *)
Variable universe : gset basic_block.
Hypothesis universe_closed :
  ∀ blk link, blk ∈ universe → link ∈ links blk → link ∈ universe.

(** What a walk from [starts] with [visited] already marked leaves:
    the marked set [visited'] and the blocks [order] it passed. *)
Record walk_post (starts : list basic_block)
    (visited visited' : gset basic_block) (order : list basic_block) : Prop := {
  post_grows : visited ⊆ visited';
  post_inside : visited' ⊆ universe;
  post_starts : ∀ s, s ∈ starts → s ∈ visited';
  post_once : NoDup order;
  post_new : ∀ blk, blk ∈ order ↔ blk ∈ visited' ∧ blk ∉ visited;
  post_closed :
    ∀ blk link, blk ∈ visited' → blk ∉ visited → link ∈ links blk
                → link ∈ visited';
  post_reached : ∀ blk, blk ∈ order → reachable links starts blk;
}.

Lemma walk_post_stay starts visited :
  visited ⊆ universe → (∀ s, s ∈ starts → s ∈ visited) →
  walk_post starts visited visited [].
Proof.
  intros Hin Hstarts. split.
  - done.
  - done.
  - done.
  - constructor.
  - intros blk. rewrite elem_of_nil. tauto.
  - tauto.
  - intros blk Hblk. by apply elem_of_nil in Hblk.
Qed.

Lemma walk_all_post step blocks :
  ∀ fuel : nat,
  (∀ blk visited,
     blk ∈ universe → visited ⊆ universe →
     (size (universe ∖ visited) < fuel)%nat →
     ∃ visited' order,
       step blk visited = Some (visited', order)
       ∧ walk_post [blk] visited visited' order) →
  ∀ visited,
    (∀ blk, blk ∈ blocks → blk ∈ universe) → visited ⊆ universe →
    (size (universe ∖ visited) < fuel)%nat →
    ∃ visited' order,
      walk_all step blocks visited = Some (visited', order)
      ∧ walk_post blocks visited visited' order.
Proof.
  intros fuel Hstep. induction blocks as [|blk blocks IH];
    intros visited Hblocks Hvisited Hsize.
  { exists visited, []. split; [done|].
    apply walk_post_stay; [done|]. intros s Hs. by apply elem_of_nil in Hs. }
  destruct (Hstep blk visited) as (v1 & o1 & Hwalk & P1);
    [set_solver|done|done|].
  destruct (IH v1) as (v2 & o2 & Hall & P2).
  { set_solver. }
  { apply P1. }
  { eapply Nat.le_lt_trans; [|exact Hsize].
    apply subseteq_size. pose proof (post_grows _ _ _ _ P1). set_solver. }
  exists v2, (o1 ++ o2). split.
  { simpl. rewrite Hwalk. simpl. rewrite Hall. done. }
  destruct P1 as [Hg1 Hi1 Hs1 Ho1 Hn1 Hc1 Hr1].
  destruct P2 as [Hg2 Hi2 Hs2 Ho2 Hn2 Hc2 Hr2].
  split.
  - set_solver.
  - done.
  - intros s [->|Hs]%elem_of_cons; [|by apply Hs2].
    apply Hg2, Hs1. set_solver.
  - apply NoDup_app. split_and!; [done| |done].
    intros x Hx1 Hx2. apply Hn1 in Hx1. apply Hn2 in Hx2. tauto.
  - intros x. rewrite elem_of_app, Hn1, Hn2. split.
    + intros [[? ?]|[? ?]]; set_solver.
    + intros [? ?]. destruct (decide (x ∈ v1)); tauto.
  - intros x link Hx Hnew Hlink. destruct (decide (x ∈ v1)).
    + apply Hg2. by eapply Hc1.
    + by eapply Hc2.
  - intros x [Hx|Hx]%elem_of_app.
    + destruct (Hr1 x Hx) as (s & ->%list_elem_of_singleton & Hrtc).
      exists blk. split; [set_solver|done].
    + destruct (Hr2 x Hx) as (s & Hs & Hrtc).
      exists s. split; [set_solver|done].
Qed.

Lemma walk_post_single fuel :
  ∀ blk visited,
    blk ∈ universe → visited ⊆ universe →
    (size (universe ∖ visited) < fuel)%nat →
    ∃ visited' order,
      walk fuel links blk visited = Some (visited', order)
      ∧ walk_post [blk] visited visited' order.
Proof.
  induction fuel as [|fuel IH]; intros blk visited Hblk Hvisited Hsize; [lia|].
  simpl. destruct (decide (blk ∈ visited)) as [Hin|Hnew].
  { exists visited, []. split; [done|].
    apply walk_post_stay; [done|]. by intros s ->%list_elem_of_singleton. }
  destruct (walk_all_post (walk fuel links) (links blk) fuel IH
              ({[blk]} ∪ visited)) as (v2 & o2 & Hall & P2).
  { intros link Hlink. by eapply universe_closed. }
  { set_solver. }
  { assert (universe ∖ ({[blk]} ∪ visited) ⊂ universe ∖ visited) as Hsub
      by set_solver.
    apply subset_size in Hsub. lia. }
  exists v2, (o2 ++ [blk]). split.
  { rewrite Hall. done. }
  destruct P2 as [Hg2 Hi2 Hs2 Ho2 Hn2 Hc2 Hr2]. split.
  - set_solver.
  - done.
  - intros s ->%list_elem_of_singleton. set_solver.
  - apply NoDup_app. split_and!; [done| |apply NoDup_singleton].
    intros x Hx ->%list_elem_of_singleton. apply Hn2 in Hx. set_solver.
  - intros x. rewrite elem_of_app, Hn2, list_elem_of_singleton. split.
    + intros [[? ?]| ->]; set_solver.
    + intros [? ?]. destruct (decide (x = blk)); [by right|left]. set_solver.
  - intros x link Hx Hnotin Hlink. destruct (decide (x = blk)) as [->|Hne].
    + by apply Hs2.
    + eapply Hc2; [done| |done]. set_solver.
  - intros x [Hx| ->%list_elem_of_singleton]%elem_of_app.
    + destruct (Hr2 x Hx) as (s & Hs & Hrtc).
      exists blk. split; [set_solver|]. by eapply rtc_l.
    + exists blk. split; [set_solver|done].
Qed.

Lemma walk_all_mono
    (step step' : basic_block → gset basic_block
                  → option (gset basic_block * list basic_block)) blocks :
  (∀ blk visited r, step blk visited = Some r → step' blk visited = Some r) →
  ∀ visited r,
    walk_all step blocks visited = Some r →
    walk_all step' blocks visited = Some r.
Proof.
  intros Hstep. induction blocks as [|blk blocks IH]; intros visited r; [done|].
  simpl. destruct (step blk visited) as [r1|] eqn:H1; [|done].
  rewrite (Hstep _ _ _ H1). simpl.
  destruct (walk_all step blocks r1.1) as [r2|] eqn:H2; [|done].
  by rewrite (IH _ _ H2).
Qed.

(** A larger budget does not change the result of a walk. *)
Lemma walk_mono fuel fuel' blk visited r :
  (fuel ≤ fuel')%nat →
  walk fuel links blk visited = Some r →
  walk fuel' links blk visited = Some r.
Proof.
  revert fuel' blk visited r. induction fuel as [|fuel IH];
    intros fuel' blk visited r Hle; [done|].
  destruct fuel' as [|fuel']; [lia|]. simpl.
  destruct (decide (blk ∈ visited)); [done|].
  destruct (walk_all (walk fuel links) (links blk) ({[blk]} ∪ visited))
    as [r1|] eqn:Hall; [|done].
  erewrite walk_all_mono; [done| |exact Hall].
  intros b v r'. apply IH. lia.
Qed.

(** A walk that starts with nothing marked passes each block that can be
    reached from its starting blocks, once. *)
Lemma walk_post_reachable starts visited' order :
  walk_post starts ∅ visited' order →
  NoDup order ∧ ∀ blk, blk ∈ order ↔ reachable links starts blk.
Proof.
  intros [Hg Hi Hs Ho Hn Hc Hr]. split; [done|].
  intros blk. split; [apply Hr|].
  intros (s & Hstart & Hrtc). apply Hn. split; [|set_solver].
  revert blk Hrtc. apply rtc_ind_r; [by apply Hs|].
  intros y z _ Hyz Hy. eapply Hc; [exact Hy|set_solver|done].
Qed.

Lemma walk_reachable fuel blk :
  blk ∈ universe → (size universe < fuel)%nat →
  ∃ visited' order,
    walk fuel links blk ∅ = Some (visited', order)
    ∧ NoDup order ∧ ∀ b, b ∈ order ↔ reachable links [blk] b.
Proof.
  intros Hblk Hsize.
  destruct (walk_post_single fuel blk ∅) as (v & o & Hwalk & P);
    [done|set_solver| |].
  { by replace (universe ∖ ∅) with universe by set_solver. }
  exists v, o. split; [done|]. by eapply walk_post_reachable.
Qed.

Lemma walk_all_reachable fuel starts :
  (∀ s, s ∈ starts → s ∈ universe) → (size universe < fuel)%nat →
  ∃ visited' order,
    walk_all (walk fuel links) starts ∅ = Some (visited', order)
    ∧ NoDup order ∧ ∀ b, b ∈ order ↔ reachable links starts b.
Proof.
  intros Hstarts Hsize.
  destruct (walk_all_post (walk fuel links) starts fuel
              (walk_post_single fuel) ∅) as (v & o & Hwalk & P);
    [done|set_solver| |].
  { by replace (universe ∖ ∅) with universe by set_solver. }
  exists v, o. split; [done|]. by eapply walk_post_reachable.
Qed.

End WalkFacts.

(** ** [apply_pass] in the serial orders *)

Section Serial.

Context {state basic_block routine : Type}.
Context `{Countable basic_block}.
Context {members : routine_members state basic_block routine}.

Implicit Types (blk : basic_block) (rtn : routine) (st : state).
Implicit Types (opt : @pass_fn state basic_block).

Lemma invoke_on_app opt o1 o2 n st :
  invoke_on opt (o1 ++ o2) n st
  = match invoke_on opt o1 n st with
    | Done (n1, st1) => invoke_on opt o2 n1 st1
    | Fatal => Fatal
    | OutOfFuel => OutOfFuel
    end.
Proof.
  unfold invoke_on. revert n st. induction o1 as [|blk o1 IH]; intros n st.
  { done. }
  simpl. unfold bind.
  destruct (worker opt blk n st) as [[n1 st1]| |]; [|done..].
  apply IH.
Qed.

Lemma invoke_on_keeps_links opt fwd order :
  keeps_links opt →
  ∀ n st n' st',
    invoke_on opt order n st = Done (n', st') →
    ∀ b, links_in fwd st' b = links_in fwd st b.
Proof.
  intros Hkeep. unfold invoke_on.
  induction order as [|blk order IH]; intros n st n' st'; simpl.
  { by intros [= _ ->]. }
  unfold bind at 1, worker at 1, bind at 1.
  destruct (opt blk true st) as [[k st1]| |] eqn:Hopt; [|done..].
  unfold ret. intros Hrest b. rewrite (IH _ _ _ _ Hrest).
  unfold links_in. destruct (Hkeep _ _ _ _ Hopt b) as [-> ->]. done.
Qed.

Lemma for_range_walk_all opt fwd links fuel :
  keeps_links opt →
  (∀ blk visited n st visited' order,
     (∀ b, links_in fwd st b = links b) →
     walk fuel links blk visited = Some (visited', order) →
     rec fuel (worker opt) blk fwd (visited, n) st
     = match invoke_on opt order n st with
       | Done (n', st') => Done ((visited', n'), st')
       | Fatal => Fatal
       | OutOfFuel => OutOfFuel
       end) →
  ∀ blocks visited n st visited' order,
    (∀ b, links_in fwd st b = links b) →
    walk_all (walk fuel links) blocks visited = Some (visited', order) →
    for_range blocks (λ link acc, rec fuel (worker opt) link fwd acc)
      (visited, n) st
    = match invoke_on opt order n st with
      | Done (n', st') => Done ((visited', n'), st')
      | Fatal => Fatal
      | OutOfFuel => OutOfFuel
      end.
Proof.
  intros Hkeep Hrec. induction blocks as [|b blocks IH];
    intros visited n st visited' order Hlinks Hall; simpl in Hall |- *.
  { by injection Hall as <- <-. }
  destruct (walk fuel links b visited) as [[v1 o1]|] eqn:Hwalk; [|done].
  simpl in Hall.
  destruct (walk_all (walk fuel links) blocks v1) as [[v2 o2]|] eqn:Hrest;
    [|done].
  injection Hall as <- <-.
  unfold bind. rewrite (Hrec _ _ _ _ _ _ Hlinks Hwalk), invoke_on_app.
  destruct (invoke_on opt o1 n st) as [[n1 st1]| |] eqn:Hfirst; [|done..].
  apply IH; [|done].
  intros b'. rewrite <- Hlinks. by eapply invoke_on_keeps_links.
Qed.

(** With the links kept by the pass, [rec] invokes the worker on the
    blocks of the walk, in its order. *)
Lemma rec_walk opt fwd links fuel :
  keeps_links opt →
  ∀ blk visited n st visited' order,
    (∀ b, links_in fwd st b = links b) →
    walk fuel links blk visited = Some (visited', order) →
    rec fuel (worker opt) blk fwd (visited, n) st
    = match invoke_on opt order n st with
      | Done (n', st') => Done ((visited', n'), st')
      | Fatal => Fatal
      | OutOfFuel => OutOfFuel
      end.
Proof.
  intros Hkeep. induction fuel as [|fuel IHfuel];
    intros blk visited n st visited' order Hlinks Hwalk; [done|].
  simpl in Hwalk |- *.
  destruct (decide (blk ∈ visited)) as [Hin|Hnew].
  { by injection Hwalk as <- <-. }
  destruct (walk_all (walk fuel links) (links blk) ({[blk]} ∪ visited))
    as [[v2 o2]|] eqn:Hall; [|done].
  injection Hwalk as <- <-.
  unfold bind.
  replace (if fwd then next blk st else prev blk st) with (links blk)
    by (rewrite <- Hlinks; done).
  rewrite (for_range_walk_all opt fwd links fuel Hkeep IHfuel
             _ _ _ _ _ _ Hlinks Hall), invoke_on_app. simpl.
  destruct (invoke_on opt o2 n st) as [[n2 st2]| |]; [|done..].
  unfold invoke_on. simpl. unfold bind.
  by destruct (worker opt blk n2 st2) as [[n3 st3]| |].
Qed.

Lemma apply_pass_df_walk opt rtn st fuel visited' order :
  keeps_links opt →
  walk fuel (links_in true st) (entry_point rtn st) ∅ = Some (visited', order) →
  apply_pass fuel serial_df opt rtn st = invoke_on opt order 0%N st.
Proof.
  intros Hkeep Hwalk. unfold apply_pass. simpl. unfold bind.
  rewrite (rec_walk opt true (links_in true st) fuel Hkeep
             _ _ _ _ _ _ (λ b, eq_refl) Hwalk).
  by destruct (invoke_on opt order 0%N st) as [[n st']| |].
Qed.

Lemma apply_pass_bf_walk opt rtn st fuel visited' order :
  keeps_links opt →
  walk_all (walk fuel (links_in false st)) (get_exits rtn st) ∅
  = Some (visited', order) →
  apply_pass fuel serial_bf opt rtn st = invoke_on opt order 0%N st.
Proof.
  intros Hkeep Hwalk. unfold apply_pass. simpl. unfold bind.
  rewrite (for_range_walk_all opt false (links_in false st) fuel Hkeep
             (rec_walk opt false (links_in false st) fuel Hkeep)
             _ _ _ _ _ _ (λ b, eq_refl) Hwalk).
  by destruct (invoke_on opt order 0%N st) as [[n st']| |].
Qed.

Lemma invoke_on_returns opt order :
  always_returns opt → ∀ n st, ∃ r, invoke_on opt order n st = Done r.
Proof.
  intros Hret. unfold invoke_on.
  induction order as [|blk order IH]; intros n st; simpl; [by eexists|].
  unfold bind at 1, worker at 1, bind at 1.
  destruct (Hret blk st) as [[k st1] ->]. apply IH.
Qed.

(** C2, as amended. On a routine whose blocks form the chain
    [blk_A → blk_B → blk_C], with a pass that leaves the links alone, the
    depth-first [apply_pass] invokes the pass on [blk_C], then [blk_B],
    then [blk_A], and the breadth-first one, from the exit [blk_C], on
    [blk_A], then [blk_B], then [blk_C]: in both, the pass runs on a block
    after it ran on the blocks the walk went to from it, and once on each
    block. *)
Theorem chain_serial_orders (blk_A blk_B blk_C : basic_block) opt rtn st :
  blk_A ≠ blk_B → blk_B ≠ blk_C → blk_A ≠ blk_C →
  entry_point rtn st = blk_A →
  get_exits rtn st = [blk_C] →
  next blk_A st = [blk_B] → next blk_B st = [blk_C] → next blk_C st = [] →
  prev blk_A st = [] → prev blk_B st = [blk_A] → prev blk_C st = [blk_B] →
  keeps_links opt →
  ∀ fuel : nat,
    (3 ≤ fuel)%nat →
    apply_pass fuel serial_df opt rtn st
    = invoke_on opt [blk_C; blk_B; blk_A] 0%N st
    ∧ apply_pass fuel serial_bf opt rtn st
      = invoke_on opt [blk_A; blk_B; blk_C] 0%N st.
Proof.
  intros HAB HBC HAC Hentry Hexits HnA HnB HnC HpA HpB HpC Hkeep fuel Hfuel.
  destruct fuel as [|[|[|fuel]]]; [lia..|]. split.
  - assert (links_in true st blk_A = [blk_B]) as HA by done.
    assert (links_in true st blk_B = [blk_C]) as HB by done.
    assert (links_in true st blk_C = []) as HC by done.
    eapply apply_pass_df_walk; [done|]. rewrite Hentry.
    cbn [walk]. rewrite decide_False by set_solver.
    rewrite HA. cbn [walk_all walk]. rewrite decide_False by set_solver.
    rewrite HB. cbn [walk_all walk]. rewrite decide_False by set_solver.
    rewrite HC. reflexivity.
  - assert (links_in false st blk_C = [blk_B]) as HC by done.
    assert (links_in false st blk_B = [blk_A]) as HB by done.
    assert (links_in false st blk_A = []) as HA by done.
    eapply apply_pass_bf_walk; [done|]. rewrite Hexits.
    cbn [walk_all walk]. rewrite decide_False by set_solver.
    rewrite HC. cbn [walk_all walk]. rewrite decide_False by set_solver.
    rewrite HB. cbn [walk_all walk]. rewrite decide_False by set_solver.
    rewrite HA. reflexivity.
Qed.

End Serial.

(** ** The chain and a routine with a cycle *)

Lemma fixed_routine_keeps_links {state : Type} succs preds entry exits blocks
    (opt : @pass_fn state nat) :
  keeps_links (members := Examples.fixed_routine succs preds entry exits blocks)
    opt.
Proof. intros blk st k st' _ b. done. Qed.

(** The chain of three blocks, with the pass that logs the block it is
    given. *)
Lemma chain_serial_orders_witness :
  apply_pass (members := Examples.chain) 3 serial_df Examples.log_block tt []
  = invoke_on Examples.log_block
      [Examples.blk_C; Examples.blk_B; Examples.blk_A] 0%N []
  ∧ apply_pass (members := Examples.chain) 3 serial_bf Examples.log_block tt []
    = invoke_on Examples.log_block
        [Examples.blk_A; Examples.blk_B; Examples.blk_C] 0%N [].
Proof.
  apply (chain_serial_orders (members := Examples.chain)
           Examples.blk_A Examples.blk_B Examples.blk_C
           Examples.log_block tt []).
  - discriminate.
  - discriminate.
  - discriminate.
  - reflexivity.
  - reflexivity.
  - reflexivity.
  - reflexivity.
  - reflexivity.
  - reflexivity.
  - reflexivity.
  - reflexivity.
  - apply fixed_routine_keeps_links.
  - lia.
Defined.

(** On the chain, no budget makes the depth-first [apply_pass] pass the
    blocks in the order [blk_A], [blk_B], [blk_C], nor the breadth-first
    one in the order [blk_C], [blk_B], [blk_A]: the log of the passed
    blocks is the reverse in both. *)
Lemma chain_orders_reversed :
  apply_pass (members := Examples.chain) 4 serial_df Examples.log_block tt []
  = Done (3%N, [Examples.blk_C; Examples.blk_B; Examples.blk_A])
  ∧ apply_pass (members := Examples.chain) 4 serial_bf Examples.log_block tt []
    = Done (3%N, [Examples.blk_A; Examples.blk_B; Examples.blk_C])
  ∧ ¬ (∃ fuel : nat,
         apply_pass (members := Examples.chain) fuel serial_df
           Examples.log_block tt []
         = Done (3%N, [Examples.blk_A; Examples.blk_B; Examples.blk_C]))
  ∧ ¬ (∃ fuel : nat,
         apply_pass (members := Examples.chain) fuel serial_bf
           Examples.log_block tt []
         = Done (3%N, [Examples.blk_C; Examples.blk_B; Examples.blk_A])).
Proof.
  split_and!; [reflexivity|reflexivity| |].
  - intros [fuel Hfuel]. destruct fuel as [|[|[|fuel]]]; [done..|].
    pose proof (walk_mono
                  (links_in (members := Examples.chain) true ([] : list nat))
                  3 (S (S (S fuel))) Examples.blk_A ∅ _ ltac:(lia) eq_refl)
      as Hwalk.
    rewrite (apply_pass_df_walk (members := Examples.chain) _ _ _ _ _ _
               (fixed_routine_keeps_links _ _ _ _ _ _) Hwalk) in Hfuel.
    vm_compute in Hfuel. discriminate.
  - intros [fuel Hfuel]. destruct fuel as [|[|[|fuel]]]; [done..|].
    pose proof (walk_all_mono
                  (walk 3 (links_in (members := Examples.chain) false
                             ([] : list nat)))
                  (walk (S (S (S fuel)))
                     (links_in (members := Examples.chain) false
                        ([] : list nat)))
                  [Examples.blk_C]
                  (λ b v r, walk_mono _ 3 (S (S (S fuel))) b v r ltac:(lia))
                  ∅ _ eq_refl) as Hwalk.
    rewrite (apply_pass_bf_walk (members := Examples.chain) _ _ _ _ _ _
               (fixed_routine_keeps_links _ _ _ _ _ _) Hwalk) in Hfuel.
    vm_compute in Hfuel. discriminate.
Qed.

(** * Further properties of the pass interface *)

(** ** Sequences of passes *)

Section Sequences.

Context {state basic_block routine : Type}.
Context `{Countable basic_block}.
Context {members : routine_members state basic_block routine}.

Local Abbreviation pass_t := (@pass_interface state basic_block routine).
Implicit Types (Tx Ux : list pass_t).
Implicit Types (blk : basic_block) (rtn : routine) (st : state).

Lemma size_add_assoc a b c :
  Size.add (Size.add a b) c = Size.add a (Size.add b c).
Proof.
  unfold Size.add.
  rewrite N.Div0.add_mod_idemp_l, N.Div0.add_mod_idemp_r. f_equal. lia.
Qed.

Lemma size_add_sum n ns :
  Size.add n (size_sum ns) = size_sum (n :: ns).
Proof.
  rewrite !size_sum_mod. unfold Size.add. simpl.
  by rewrite N.Div0.add_mod_idemp_r.
Qed.

Lemma size_sum_single n : (n < 2 ^ 64)%N → size_sum [n] = n.
Proof.
  intros Hn. rewrite size_sum_mod. simpl. rewrite N.add_0_r.
  by apply N.mod_small.
Qed.

Lemma pass_combine_chain (T1 : pass_t) Tx blk (xblock : bool) :
  pass (combine_pass T1 Tx) blk xblock
  = chain (pass T1 blk xblock) ((λ T : pass_t, pass T blk xblock) <$> Tx).
Proof.
  revert T1. induction Tx as [|T2 Tx IH]; intros T1; [done|].
  simpl. by rewrite IH.
Qed.

Lemma xpass_combine_chain (T1 : pass_t) Tx rtn :
  xpass (combine_pass T1 Tx) rtn
  = chain (xpass T1 rtn) ((λ T : pass_t, xpass T rtn) <$> Tx).
Proof.
  revert T1. induction Tx as [|T2 Tx IH]; intros T1; [done|].
  simpl. by rewrite IH.
Qed.

Lemma collect_cons (call : computation state N) calls st :
  collect (call :: calls) st
  = match call st with
    | Done (n, st1) =>
        match collect calls st1 with
        | Done (ns, st2) => Done (n :: ns, st2)
        | Fatal => Fatal
        | OutOfFuel => OutOfFuel
        end
    | Fatal => Fatal
    | OutOfFuel => OutOfFuel
    end.
Proof.
  simpl. unfold bind. destruct (call st) as [[n st1]| |]; [|done..].
  by destruct (collect calls st1) as [[ns st2]| |].
Qed.

Lemma collect_length (calls : list (computation state N)) st ns st' :
  collect calls st = Done (ns, st') → length ns = length calls.
Proof.
  revert st ns. induction calls as [|call calls IH]; intros st ns.
  { simpl. unfold ret. by intros [= <- _]. }
  rewrite collect_cons.
  destruct (call st) as [[n st1]| |]; [|done..].
  destruct (collect calls st1) as [[ms st2]| |] eqn:Hrest; [|done..].
  intros Heq. injection Heq as <- <-. simpl. f_equal. by eapply IH.
Qed.

Lemma chain_cons (first second : computation state N) others st :
  chain first (second :: others) st
  = match first st with
    | Done (n, st1) =>
        match chain second others st1 with
        | Done (m, st2) => Done (Size.add n m, st2)
        | Fatal => Fatal
        | OutOfFuel => OutOfFuel
        end
    | Fatal => Fatal
    | OutOfFuel => OutOfFuel
    end.
Proof.
  cbn [chain]. unfold bind. destruct (first st) as [[n st1]| |]; [|done..].
  by destruct (chain second others st1) as [[m st2]| |].
Qed.

(** A chain of calls is the calls made in order: it fails where the first
    of them fails, and otherwise returns the sum of their counts. *)
Lemma chain_collect (first : computation state N) others st :
  chain first others st
  = match collect (first :: others) st with
    | Done (ns, st') => Done (combined_count ns, st')
    | Fatal => Fatal
    | OutOfFuel => OutOfFuel
    end.
Proof.
  unfold combined_count.
  revert first st. induction others as [|second others IH]; intros first st.
  { rewrite collect_cons. simpl.
    by destruct (first st) as [[n st1]| |]. }
  rewrite chain_cons, collect_cons.
  destruct (first st) as [[n st1]| |]; [|done..].
  rewrite IH.
  destruct (collect (second :: others) st1) as [[ns st2]| |] eqn:Hrest;
    [|done..].
  apply collect_length in Hrest.
  f_equal. f_equal.
  destruct ns as [|m [|m' ns]].
  - done.
  - unfold size_sum. simpl. unfold Size.add.
    by rewrite N.add_0_l, N.Div0.add_mod_idemp_l.
  - by rewrite size_add_sum.
Qed.

Lemma chain_app (first : computation state N) others second others' st :
  chain (chain first others) (second :: others') st
  = chain first (others ++ second :: others') st.
Proof.
  revert first st. induction others as [|m others IH]; intros first st.
  { done. }
  rewrite chain_cons. cbn [app]. rewrite !chain_cons.
  destruct (first st) as [[n st1]| |]; [|done..].
  rewrite <- IH, chain_cons.
  destruct (chain m others st1) as [[k st2]| |]; [|done..].
  destruct (chain second others' st2) as [[j st3]| |]; [|done..].
  by rewrite size_add_assoc.
Qed.

(** X1. The single-block and the routine transform of [combine_pass] run the
    passes in the order they are listed, each on the memory the one before
    left; the first pass that does not return ends the sequence with its
    outcome, and otherwise the counts are added. *)
Theorem combine_pass_in_order (T1 : pass_t) Tx blk (xblock : bool) rtn st :
  pass (combine_pass T1 Tx) blk xblock st
  = match collect ((λ T : pass_t, pass T blk xblock) <$> T1 :: Tx) st with
    | Done (ns, st') => Done (combined_count ns, st')
    | Fatal => Fatal
    | OutOfFuel => OutOfFuel
    end
  ∧ xpass (combine_pass T1 Tx) rtn st
    = match collect ((λ T : pass_t, xpass T rtn) <$> T1 :: Tx) st with
      | Done (ns, st') => Done (combined_count ns, st')
      | Fatal => Fatal
      | OutOfFuel => OutOfFuel
      end.
Proof.
  split.
  - rewrite pass_combine_chain. apply chain_collect.
  - rewrite xpass_combine_chain. apply chain_collect.
Qed.

(** X2. Grouping does not matter: a [combine_pass] whose first pass is itself
    a [combine_pass] transforms blocks and routines as the [combine_pass]
    of all the passes listed flat. *)
Theorem combine_pass_nested (T1 U1 : pass_t) Tx Ux blk (xblock : bool) rtn st :
  pass (combine_pass (combine_pass T1 Tx) (U1 :: Ux)) blk xblock st
  = pass (combine_pass T1 (Tx ++ U1 :: Ux)) blk xblock st
  ∧ xpass (combine_pass (combine_pass T1 Tx) (U1 :: Ux)) rtn st
    = xpass (combine_pass T1 (Tx ++ U1 :: Ux)) rtn st.
Proof.
  split.
  - rewrite !pass_combine_chain, fmap_app, fmap_cons. apply chain_app.
  - rewrite !xpass_combine_chain, fmap_app, fmap_cons. apply chain_app.
Qed.

(** X3. On a routine, and on a block with cross-block exploration off, the
    conditional combinator is its first pass alone when that pass reports
    zero, and the [combine_pass] of all its passes otherwise (also when
    the first pass does not return). *)
Theorem conditional_pass_gate (T1 T2 : pass_t) Tx blk rtn st :
  xpass (conditional_pass T1 T2 Tx) rtn st
  = match xpass T1 rtn st with
    | Done (n, st1) =>
        if decide (n = 0%N) then Done (0%N, st1)
        else xpass (combine_pass T1 (T2 :: Tx)) rtn st
    | _ => xpass (combine_pass T1 (T2 :: Tx)) rtn st
    end
  ∧ pass (conditional_pass T1 T2 Tx) blk false st
    = match pass T1 blk false st with
      | Done (n, st1) =>
          if decide (n = 0%N) then Done (0%N, st1)
          else pass (combine_pass T1 (T2 :: Tx)) blk false st
      | _ => pass (combine_pass T1 (T2 :: Tx)) blk false st
      end.
Proof.
  split.
  - cbn [xpass conditional_pass combine_pass]. unfold bind.
    destruct (xpass T1 rtn st) as [[n st1]| |]; [|done..].
    destruct (decide (n = 0%N)) as [->|Hn]; [done|].
    by rewrite decide_True.
  - cbn [pass conditional_pass combine_pass negb]. unfold bind.
    destruct (pass T1 blk false st) as [[n st1]| |]; [|done..].
    destruct (decide (n = 0%N)) as [->|Hn]; [done|].
    by rewrite decide_True.
Qed.

End Sequences.

(** ** More on the serial orders *)

Section SerialMore.

Context {state basic_block routine : Type}.
Context `{Countable basic_block}.
Context {members : routine_members state basic_block routine}.

Implicit Types (blk : basic_block) (rtn : routine) (st : state).
Implicit Types (opt : @pass_fn state basic_block).

(** X11. A routine without exits: the breadth-first [apply_pass] has no block
    to start from, so it invokes the pass on no block and returns zero
    with the memory untouched, whatever the blocks and the budget. *)
Theorem apply_pass_bf_no_exit (fuel : nat) opt rtn st :
  get_exits rtn st = [] →
  apply_pass fuel serial_bf opt rtn st = Done (0%N, st).
Proof. intros Hexits. unfold apply_pass. simpl. by rewrite Hexits. Qed.

Lemma invoke_on_collect opt order n st :
  invoke_on opt order n st
  = match collect ((λ blk, opt blk true) <$> order) st with
    | Done (ks, st') => Done (foldl Size.add n ks, st')
    | Fatal => Fatal
    | OutOfFuel => OutOfFuel
    end.
Proof.
  unfold invoke_on. revert n st.
  induction order as [|blk order IH]; intros n st; [done|].
  rewrite fmap_cons, collect_cons. simpl. unfold bind at 1, worker at 1.
  unfold bind at 1.
  destruct (opt blk true st) as [[k st1]| |]; [|done..].
  unfold ret. rewrite IH.
  by destruct (collect ((λ blk, opt blk true) <$> order) st1) as [[ks st2]| |].
Qed.

(** C8, as amended. Let the blocks of the routine be a finite set closed
    under the links, with the entry and the exits in it, and let the pass
    leave the links of every block as they are. Then there are two lists
    without repetition, the blocks that can be reached from the entry
    along [next] and the blocks that can be reached from the exits along
    [prev], such that, cycles or not, the depth-first and the
    breadth-first [apply_pass] never run out of a budget above the number
    of blocks and make the calls [opt->pass( blk, true )] over the blocks
    of the respective list, one call per block, one after the other, each
    on the memory the call before left: their outcome is that of the
    first call that does not return, and otherwise the sum of the counts
    with the memory the last call left. Each block that can be reached is
    passed once, and [apply_pass] returns when the pass does. *)
Theorem serial_apply_visits_once (universe : gset basic_block) opt rtn st :
  entry_point rtn st ∈ universe →
  (∀ blk, blk ∈ get_exits rtn st → blk ∈ universe) →
  (∀ blk link,
     blk ∈ universe → link ∈ next blk st ∨ link ∈ prev blk st →
     link ∈ universe) →
  keeps_links opt →
  ∃ df_order bf_order : list basic_block,
    (NoDup df_order
     ∧ ∀ blk, blk ∈ df_order
              ↔ reachable (links_in true st) [entry_point rtn st] blk)
    ∧ (NoDup bf_order
       ∧ ∀ blk, blk ∈ bf_order
                ↔ reachable (links_in false st) (get_exits rtn st) blk)
    ∧ ∀ fuel : nat,
        (size universe < fuel)%nat →
        apply_pass fuel serial_df opt rtn st
        = match collect ((λ blk, opt blk true) <$> df_order) st with
          | Done (ks, st') => Done (size_sum ks, st')
          | Fatal => Fatal
          | OutOfFuel => OutOfFuel
          end
        ∧ apply_pass fuel serial_bf opt rtn st
          = match collect ((λ blk, opt blk true) <$> bf_order) st with
            | Done (ks, st') => Done (size_sum ks, st')
            | Fatal => Fatal
            | OutOfFuel => OutOfFuel
            end
        ∧ (always_returns opt →
           (∃ r, apply_pass fuel serial_df opt rtn st = Done r)
           ∧ (∃ r, apply_pass fuel serial_bf opt rtn st = Done r)).
Proof.
  intros Hentry Hexits Hclosed Hkeep.
  destruct (walk_reachable (links_in true st) universe) with
    (fuel := S (size universe)) (blk := entry_point rtn st)
    as (vdf & df_order & Hdf & Hdf_once & Hdf_reach); [|done|lia|].
  { intros blk link Hblk Hlink. eapply Hclosed; [exact Hblk|by left]. }
  destruct (walk_all_reachable (links_in false st) universe) with
    (fuel := S (size universe)) (starts := get_exits rtn st)
    as (vbf & bf_order & Hbf & Hbf_once & Hbf_reach); [|done|lia|].
  { intros blk link Hblk Hlink. eapply Hclosed; [exact Hblk|by right]. }
  exists df_order, bf_order. split_and!; [done..|].
  intros fuel Hfuel.
  assert (apply_pass fuel serial_df opt rtn st = invoke_on opt df_order 0%N st)
    as Hdf_apply.
  { eapply apply_pass_df_walk; [done|].
    eapply walk_mono; [|exact Hdf]. lia. }
  assert (apply_pass fuel serial_bf opt rtn st = invoke_on opt bf_order 0%N st)
    as Hbf_apply.
  { eapply apply_pass_bf_walk; [done|].
    eapply walk_all_mono; [|exact Hbf].
    intros b v r. apply walk_mono. lia. }
  split_and!.
  - rewrite Hdf_apply. apply (invoke_on_collect opt df_order 0%N st).
  - rewrite Hbf_apply. apply (invoke_on_collect opt bf_order 0%N st).
  - intros Hret. rewrite Hdf_apply, Hbf_apply.
    split; by apply invoke_on_returns.
Qed.

Lemma invoke_on_idle opt order st :
  (∀ blk st, opt blk true st = Done (0%N, st)) →
  invoke_on opt order 0%N st = Done (0%N, st).
Proof.
  intros Hidle. unfold invoke_on.
  induction order as [|blk order IH]; [done|].
  simpl. unfold bind at 1, worker at 1, bind at 1. rewrite Hidle.
  exact IH.
Qed.

(** X9. A pass that reports zero and changes nothing on any block, run by the
    engine in a serial order: [apply_pass] returns zero and the memory is
    the one it was given. *)
Theorem idle_pass_through_engine (universe : gset basic_block) opt rtn st :
  entry_point rtn st ∈ universe →
  (∀ blk, blk ∈ get_exits rtn st → blk ∈ universe) →
  (∀ blk link,
     blk ∈ universe → link ∈ next blk st ∨ link ∈ prev blk st →
     link ∈ universe) →
  (∀ blk st, opt blk true st = Done (0%N, st)) →
  ∀ fuel : nat,
    (size universe < fuel)%nat →
    apply_pass fuel serial_df opt rtn st = Done (0%N, st)
    ∧ apply_pass fuel serial_bf opt rtn st = Done (0%N, st).
Proof.
  intros Hentry Hexits Hclosed Hidle fuel Hfuel.
  assert (keeps_links opt) as Hkeep.
  { intros blk st0 k st1 Hopt b. rewrite Hidle in Hopt.
    by injection Hopt as _ <-. }
  destruct (walk_reachable (links_in true st) universe) with
    (fuel := fuel) (blk := entry_point rtn st)
    as (vdf & df_order & Hdf & _); [|done|lia|].
  { intros blk link Hblk Hlink. eapply Hclosed; [exact Hblk|by left]. }
  destruct (walk_all_reachable (links_in false st) universe) with
    (fuel := fuel) (starts := get_exits rtn st)
    as (vbf & bf_order & Hbf & _); [|done|lia|].
  { intros blk link Hblk Hlink. eapply Hclosed; [exact Hblk|by right]. }
  rewrite (apply_pass_df_walk _ _ _ _ _ _ Hkeep Hdf).
  rewrite (apply_pass_bf_walk _ _ _ _ _ _ Hkeep Hbf).
  split; by apply invoke_on_idle.
Qed.

End SerialMore.

(** ** The order of the walk follows the links *)

Section WalkOrder.

Context {basic_block : Type} `{Countable basic_block}.

Variable links : basic_block → list basic_block.
Variable universe : gset basic_block.
Hypothesis universe_closed :
  ∀ blk link, blk ∈ universe → link ∈ links blk → link ∈ universe.

Lemma walk_post_of fuel blk visited visited' order :
  blk ∈ universe → visited ⊆ universe →
  (size (universe ∖ visited) < fuel)%nat →
  walk fuel links blk visited = Some (visited', order) →
  walk_post links universe [blk] visited visited' order.
Proof.
  intros Hblk Hvisited Hsize Hwalk.
  destruct (walk_post_single links universe universe_closed fuel blk visited)
    as (v & o & Hwalk' & Hpost); [done..|].
  rewrite Hwalk in Hwalk'. by injection Hwalk' as -> ->.
Qed.

Lemma walk_all_post_of fuel blocks visited visited' order :
  (∀ blk, blk ∈ blocks → blk ∈ universe) → visited ⊆ universe →
  (size (universe ∖ visited) < fuel)%nat →
  walk_all (walk fuel links) blocks visited = Some (visited', order) →
  walk_post links universe blocks visited visited' order.
Proof.
  intros Hblocks Hvisited Hsize Hwalk.
  destruct (walk_all_post links universe universe_closed (walk fuel links)
              blocks fuel
              (walk_post_single links universe universe_closed fuel) visited)
    as (v & o & Hwalk' & Hpost); [done..|].
  rewrite Hwalk in Hwalk'. by injection Hwalk' as -> ->.
Qed.

(** The root of a walk is passed last. *)
Lemma walk_root_last fuel blk visited visited' order :
  blk ∉ visited →
  walk fuel links blk visited = Some (visited', order) →
  ∃ earlier, order = earlier ++ [blk].
Proof.
  intros Hnew. destruct fuel as [|fuel]; [done|]. simpl.
  rewrite decide_False by done.
  destruct (walk_all (walk fuel links) (links blk) ({[blk]} ∪ visited))
    as [r|]; [|done].
  intros [= _ <-]. by eexists.
Qed.

Lemma passed_before_app_l (o1 o2 : list basic_block) y x :
  passed_before o2 y x → passed_before (o1 ++ o2) y x.
Proof.
  intros (p & q & -> & Hy). exists (o1 ++ p), q.
  split; [by rewrite <- app_assoc|]. set_solver.
Qed.

Lemma passed_before_app_r (o1 o2 : list basic_block) y x :
  passed_before o1 y x → passed_before (o1 ++ o2) y x.
Proof.
  intros (p & q & -> & Hy). exists p, (q ++ o2).
  split; [by rewrite <- app_assoc|done].
Qed.

Lemma passed_before_across (o1 o2 : list basic_block) y x :
  y ∈ o1 → x ∈ o2 → passed_before (o1 ++ o2) y x.
Proof.
  intros Hy (p & q & ->)%list_elem_of_split. exists (o1 ++ p), q.
  split; [by rewrite <- app_assoc|]. set_solver.
Qed.

Hypothesis links_acyclic : acyclic links.

(** [finished] are the blocks passed before the walk starts; the other
    marked blocks are the ones on the way to the block the walk is at. *)
Lemma walk_all_before fuel :
  (∀ blk visited finished,
     blk ∈ universe → visited ⊆ universe →
     (size (universe ∖ visited) < fuel)%nat →
     finished ⊆ visited →
     (∀ g, g ∈ visited → g ∉ finished → rtc (λ x y, y ∈ links x) g blk) →
     ∀ visited' order,
       walk fuel links blk visited = Some (visited', order) →
       ∀ x y, x ∈ order → y ∈ links x →
              y ∈ finished ∨ passed_before order y x) →
  ∀ blocks visited (finished : gset basic_block),
    (∀ blk, blk ∈ blocks → blk ∈ universe) → visited ⊆ universe →
    (size (universe ∖ visited) < fuel)%nat →
    finished ⊆ visited →
    (∀ blk g, blk ∈ blocks → g ∈ visited → g ∉ finished →
              rtc (λ x y, y ∈ links x) g blk) →
    ∀ visited' order,
      walk_all (walk fuel links) blocks visited = Some (visited', order) →
      ∀ x y, x ∈ order → y ∈ links x →
             y ∈ finished ∨ passed_before order y x.
Proof.
  intros Hstep. induction blocks as [|blk blocks IH];
    intros visited finished Hblocks Hvisited Hsize Hfin Hway visited' order
           Hwalk x y Hx Hy.
  { injection Hwalk as _ <-. by apply elem_of_nil in Hx. }
  simpl in Hwalk.
  destruct (walk fuel links blk visited) as [[v1 o1]|] eqn:H1; [|done].
  simpl in Hwalk.
  destruct (walk_all (walk fuel links) blocks v1) as [[v2 o2]|] eqn:H2;
    [|done].
  injection Hwalk as <- <-. simpl in Hx.
  pose proof (walk_post_of fuel blk visited v1 o1) as P1.
  destruct P1 as [Hg1 Hi1 Hs1 Ho1 Hn1 Hc1 Hr1]; [set_solver|done..|].
  apply elem_of_app in Hx as [Hx|Hx].
  - destruct (Hstep blk visited finished) with (visited' := v1) (order := o1)
      (x := x) (y := y) as [?|?]; try done.
    + set_solver.
    + intros g Hg Hgf. apply Hway; [set_solver|done..].
    + by left.
    + right. by apply passed_before_app_r.
  - destruct (IH v1 (finished ∪ list_to_set o1)) with (visited' := v2)
      (order := o2) (x := x) (y := y) as [Hfin'|?]; try done.
    + set_solver.
    + eapply Nat.le_lt_trans; [|exact Hsize].
      apply subseteq_size. set_solver.
    + intros z [Hz|Hz]%elem_of_union; [set_solver|].
      apply elem_of_list_to_set in Hz. apply Hn1 in Hz. tauto.
    + intros b g Hb Hg Hgf. apply Hway; [set_solver| |set_solver].
      destruct (decide (g ∈ visited)) as [|Hnew]; [done|].
      exfalso. apply Hgf. apply elem_of_union. right.
      apply elem_of_list_to_set. apply Hn1. done.
    + apply elem_of_union in Hfin' as [?|Hin]; [by left|].
      right. apply elem_of_list_to_set in Hin.
      by apply passed_before_across.
    + right. by apply passed_before_app_l.
Qed.

Lemma walk_before fuel :
  ∀ blk visited (finished : gset basic_block),
    blk ∈ universe → visited ⊆ universe →
    (size (universe ∖ visited) < fuel)%nat →
    finished ⊆ visited →
    (∀ g, g ∈ visited → g ∉ finished → rtc (λ x y, y ∈ links x) g blk) →
    ∀ visited' order,
      walk fuel links blk visited = Some (visited', order) →
      ∀ x y, x ∈ order → y ∈ links x →
             y ∈ finished ∨ passed_before order y x.
Proof.
  induction fuel as [|fuel IH];
    intros blk visited finished Hblk Hvisited Hsize Hfin Hway visited' order
           Hwalk x y Hx Hy; [done|].
  simpl in Hwalk. destruct (decide (blk ∈ visited)) as [Hin|Hnew].
  { injection Hwalk as _ <-. by apply elem_of_nil in Hx. }
  destruct (walk_all (walk fuel links) (links blk) ({[blk]} ∪ visited))
    as [[v2 o2]|] eqn:Hall; [|done].
  injection Hwalk as <- <-. simpl in Hx.
  assert (size (universe ∖ ({[blk]} ∪ visited)) < fuel)%nat as Hsize'.
  { assert (universe ∖ ({[blk]} ∪ visited) ⊂ universe ∖ visited) as Hsub
      by set_solver.
    apply subset_size in Hsub. lia. }
  pose proof (walk_all_post_of fuel (links blk) ({[blk]} ∪ visited) v2 o2)
    as P2.
  destruct P2 as [Hg2 Hi2 Hs2 Ho2 Hn2 Hc2 Hr2]; [|set_solver|done..|].
  { intros link Hlink. by eapply universe_closed. }
  apply elem_of_app in Hx as [Hx| ->%list_elem_of_singleton].
  - destruct (walk_all_before fuel IH (links blk) ({[blk]} ∪ visited) finished)
      with (visited' := v2) (order := o2) (x := x) (y := y) as [?|?];
      try done.
    + intros link Hlink. by eapply universe_closed.
    + set_solver.
    + set_solver.
    + intros link g Hlink [->%elem_of_singleton|Hg]%elem_of_union Hgf.
      * by apply rtc_once.
      * eapply rtc_r; [by apply Hway|done].
    + by left.
    + right. by apply passed_before_app_r.
  - destruct (decide (y ∈ {[blk]} ∪ visited)) as [Hold|Hfresh].
    + apply elem_of_union in Hold as [->%elem_of_singleton|Hold].
      { destruct (links_acyclic blk). by apply tc_once. }
      destruct (decide (y ∈ finished)) as [?|Hgray]; [by left|].
      destruct (links_acyclic y).
      eapply tc_rtc_l; [by apply Hway|]. by apply tc_once.
    + right. exists o2, []. split; [done|].
      apply Hn2. split; [by apply Hs2|done].
Qed.

End WalkOrder.

Section SerialOrder.

Context {state basic_block routine : Type}.
Context `{Countable basic_block}.
Context {members : routine_members state basic_block routine}.

Implicit Types (blk : basic_block) (rtn : routine) (st : state).
Implicit Types (opt : @pass_fn state basic_block).

(** X7. Let the blocks be a finite set closed under [next], with the
    entry in it, and let the pass leave the links alone. Then, cycles
    included, the depth-first [apply_pass] makes the calls
    [opt->pass( blk, true )] one after the other over a list without
    repetition of the blocks that can be reached from the entry, and the
    entry point is the last block of that list: it is passed after every
    other block. *)
Theorem serial_df_entry_last (universe : gset basic_block) opt rtn st :
  entry_point rtn st ∈ universe →
  (∀ blk link, blk ∈ universe → link ∈ next blk st → link ∈ universe) →
  keeps_links opt →
  ∃ earlier : list basic_block,
    NoDup (earlier ++ [entry_point rtn st])
    ∧ (∀ blk, blk ∈ earlier ++ [entry_point rtn st]
              ↔ reachable (links_in true st) [entry_point rtn st] blk)
    ∧ ∀ fuel : nat,
        (size universe < fuel)%nat →
        apply_pass fuel serial_df opt rtn st
        = match collect ((λ blk, opt blk true)
                           <$> earlier ++ [entry_point rtn st]) st with
          | Done (ks, st') => Done (size_sum ks, st')
          | Fatal => Fatal
          | OutOfFuel => OutOfFuel
          end.
Proof.
  intros Hentry Hclosed Hkeep.
  destruct (walk_reachable (links_in true st) universe Hclosed)
    with (fuel := S (size universe)) (blk := entry_point rtn st)
    as (v & order & Hwalk & Honce & Hreach); [done|lia|].
  destruct (walk_root_last _ _ _ _ _ _ (not_elem_of_empty _) Hwalk)
    as [earlier ->].
  exists earlier. split_and!; [done..|].
  intros fuel Hfuel.
  etrans; [|apply (invoke_on_collect opt _ 0%N st)].
  eapply apply_pass_df_walk; [done|].
  eapply walk_mono; [|exact Hwalk]. lia.
Qed.

(** X6. In a routine without cycles the serial orders follow the links: the
    depth-first [apply_pass] invokes the pass on every successor of a
    block before the block itself, and the breadth-first one on every
    predecessor of a block before the block itself. *)
Theorem serial_orders_follow_links (universe : gset basic_block) opt rtn st :
  entry_point rtn st ∈ universe →
  (∀ blk, blk ∈ get_exits rtn st → blk ∈ universe) →
  (∀ blk link,
     blk ∈ universe → link ∈ next blk st ∨ link ∈ prev blk st →
     link ∈ universe) →
  keeps_links opt →
  acyclic (links_in true st) →
  acyclic (links_in false st) →
  ∃ df_order bf_order : list basic_block,
    (∀ x y, x ∈ df_order → y ∈ next x st → passed_before df_order y x)
    ∧ (∀ x y, x ∈ bf_order → y ∈ prev x st → passed_before bf_order y x)
    ∧ ∀ fuel : nat,
        (size universe < fuel)%nat →
        apply_pass fuel serial_df opt rtn st = invoke_on opt df_order 0%N st
        ∧ apply_pass fuel serial_bf opt rtn st = invoke_on opt bf_order 0%N st.
Proof.
  intros Hentry Hexits Hclosed Hkeep Hdag_next Hdag_prev.
  assert (∀ blk link, blk ∈ universe → link ∈ links_in true st blk
                      → link ∈ universe) as Hclosed_next.
  { intros blk link Hblk Hlink. eapply Hclosed; [exact Hblk|by left]. }
  assert (∀ blk link, blk ∈ universe → link ∈ links_in false st blk
                      → link ∈ universe) as Hclosed_prev.
  { intros blk link Hblk Hlink. eapply Hclosed; [exact Hblk|by right]. }
  assert (size (universe ∖ ∅) < S (size universe))%nat as Hsize.
  { replace (universe ∖ ∅) with universe by set_solver. lia. }
  destruct (walk_reachable (links_in true st) universe Hclosed_next)
    with (fuel := S (size universe)) (blk := entry_point rtn st)
    as (vdf & df_order & Hdf & _); [done|lia|].
  destruct (walk_all_reachable (links_in false st) universe Hclosed_prev)
    with (fuel := S (size universe)) (starts := get_exits rtn st)
    as (vbf & bf_order & Hbf & _); [done|lia|].
  exists df_order, bf_order. split_and!.
  - intros x y Hx Hy.
    assert (y ∈ (∅ : gset basic_block) ∨ passed_before df_order y x)
      as [Hfin|Hbefore]; [|by apply not_elem_of_empty in Hfin|done].
    eapply (walk_before (links_in true st) universe Hclosed_next Hdag_next
              (S (size universe)) (entry_point rtn st) ∅ ∅); try done.
  - intros x y Hx Hy.
    assert (y ∈ (∅ : gset basic_block) ∨ passed_before bf_order y x)
      as [Hfin|Hbefore]; [|by apply not_elem_of_empty in Hfin|done].
    eapply (walk_all_before (links_in false st) universe Hclosed_prev
              Hdag_prev (S (size universe))
              (walk_before (links_in false st) universe Hclosed_prev
                 Hdag_prev (S (size universe)))
              (get_exits rtn st) ∅ ∅); try done.
  - intros fuel Hfuel. split.
    + eapply apply_pass_df_walk; [done|].
      eapply walk_mono; [|exact Hdf]. lia.
    + eapply apply_pass_bf_walk; [done|].
      eapply walk_all_mono; [|exact Hbf].
      intros b v r. apply walk_mono. lia.
Qed.

Local Abbreviation zeroed r :=
  (match r with
   | Done (acc, st') => Done ((acc.1, 0%N), st')
   | Fatal => Fatal
   | OutOfFuel => OutOfFuel
   end).

Lemma rec_zero_pass opt fwd fuel :
  ∀ blk (visited : gset basic_block) (m : N) st,
    rec fuel (worker (zero_pass opt)) blk fwd (visited, 0%N) st
    = zeroed (rec fuel (worker opt) blk fwd (visited, m) st).
Proof.
  induction fuel as [|fuel IH]; intros blk visited m st; [done|].
  cbn [rec]. destruct (decide (blk ∈ visited)); [done|].
  assert (Hloop : ∀ blocks (v : gset basic_block) (k : N) st0,
            for_range blocks
              (λ link acc, rec fuel (worker (zero_pass opt)) link fwd acc)
              (v, 0%N) st0
            = zeroed (for_range blocks
                        (λ link acc, rec fuel (worker opt) link fwd acc)
                        (v, k) st0)).
  { induction blocks as [|b blocks IHb]; intros v k st0; [done|].
    cbn [for_range]. unfold bind. rewrite (IH b v k st0).
    destruct (rec fuel (worker opt) b fwd (v, k) st0)
      as [[[v1 k1] st1]| |]; [|done..].
    apply IHb. }
  unfold bind at 1 3.
  rewrite (Hloop _ _ m st).
  destruct (for_range (if fwd then next blk st else prev blk st)
              (λ link acc, rec fuel (worker opt) link fwd acc)
              ({[blk]} ∪ visited, m) st) as [[[v1 m1] st1]| |]; [|done..].
  cbn [fst snd]. unfold bind, worker, zero_pass, bind, ret.
  by destruct (opt blk true st1) as [[k st2]| |].
Qed.

(** X10. [zero_pass<T>] run by the engine in a serial order reports zero, and
    leaves the memory [T] leaves: the walk and the calls to [T::pass] are
    the same, only the counts are dropped. *)
Theorem zero_pass_through_engine (fuel : nat) opt rtn st :
  apply_pass fuel serial_df (zero_pass opt) rtn st
  = match apply_pass fuel serial_df opt rtn st with
    | Done (_, st') => Done (0%N, st')
    | Fatal => Fatal
    | OutOfFuel => OutOfFuel
    end
  ∧ apply_pass fuel serial_bf (zero_pass opt) rtn st
    = match apply_pass fuel serial_bf opt rtn st with
      | Done (_, st') => Done (0%N, st')
      | Fatal => Fatal
      | OutOfFuel => OutOfFuel
      end.
Proof.
  split.
  - unfold apply_pass. simpl. unfold bind.
    rewrite (rec_zero_pass opt true fuel _ _ 0%N).
    by destruct (rec fuel (worker opt) (entry_point rtn st) true (∅, 0%N) st)
      as [[[v n] st']| |].
  - unfold apply_pass. simpl. unfold bind.
    assert (Hloop : ∀ blocks (v : gset basic_block) (k : N) st0,
              for_range blocks
                (λ exit acc, rec fuel (worker (zero_pass opt)) exit false acc)
                (v, 0%N) st0
              = zeroed (for_range blocks
                          (λ exit acc, rec fuel (worker opt) exit false acc)
                          (v, k) st0)).
    { induction blocks as [|b blocks IHb]; intros v k st0; [done|].
      cbn [for_range]. unfold bind.
      rewrite (rec_zero_pass opt false fuel b v k st0).
      destruct (rec fuel (worker opt) b false (v, k) st0)
        as [[[v1 k1] st1]| |]; [|done..].
      apply IHb. }
    rewrite (Hloop _ _ 0%N).
    by destruct (for_range (get_exits rtn st)
                   (λ exit acc, rec fuel (worker opt) exit false acc)
                   (∅, 0%N) st) as [[[v n] st']| |].
Qed.

End SerialOrder.

(** ** The parallel orders *)

Section Segmentation.

Context {state basic_block routine : Type}.
Context `{Countable basic_block}.
Context {members : routine_members state basic_block routine}.

Implicit Types (entry : depth_placement basic_block).
Implicit Types (entries : list (depth_placement basic_block)).

Lemma advance_app level entries :
  (advance level entries).1 ++ (advance level entries).2 = entries.
Proof.
  induction entries as [|entry entries IH]; [done|]. simpl.
  case_decide; [|done].
  destruct (advance level entries) as [segment tail]. simpl in *.
  by rewrite IH.
Qed.

Lemma advance_level level entries :
  Forall (λ entry, level_dependency entry = level) (advance level entries).1.
Proof.
  induction entries as [|entry entries IH]; [constructor|]. simpl.
  case_decide; [|constructor].
  destruct (advance level entries) as [segment tail]. simpl in *.
  by constructor.
Qed.

Lemma advance_stops level entries :
  match (advance level entries).2 with
  | [] => True
  | entry :: _ => level_dependency entry ≠ level
  end.
Proof.
  induction entries as [|entry entries IH]; [done|]. simpl.
  case_decide; [|done].
  by destruct (advance level entries) as [segment tail].
Qed.

Lemma advance_length level entries :
  (length (advance level entries).2 ≤ length entries)%nat.
Proof.
  rewrite <- (advance_app level entries) at 2. rewrite length_app. lia.
Qed.

(** The segments of a list that starts with [entry]: the run of [entry]
    and what the loop makes of the rest. *)
Lemma segments_cons entry entries :
  segments (entry :: entries)
  = (entry :: (advance (level_dependency entry) entries).1)
    :: segments (advance (level_dependency entry) entries).2.
Proof.
  revert entry. induction entries as [|e entries IH]; intros entry; [done|].
  change (segments (entry :: e :: entries))
    with (match segments (e :: entries) with
          | (e' :: seg) :: rest =>
              if decide (level_dependency entry = level_dependency e')
              then (entry :: e' :: seg) :: rest
              else [entry] :: segments (e :: entries)
          | _ => [entry] :: segments (e :: entries)
          end).
  rewrite (IH e). cbn [advance].
  destruct (decide (level_dependency entry = level_dependency e)) as [Heq|Hne].
  - rewrite decide_True by done. rewrite <- Heq.
    by destruct (advance (level_dependency entry) entries) as [segment tail].
  - rewrite decide_False by done. simpl. f_equal. symmetry. apply IH.
Qed.

Lemma segmentation_loop_segments_le fuel :
  ∀ entries,
    (length entries ≤ fuel)%nat →
    segmentation_loop fuel entries = segments entries.
Proof.
  induction fuel as [|fuel IH]; intros entries Hlen.
  { by destruct entries; [|simpl in Hlen; lia]. }
  destruct entries as [|entry entries]; [done|].
  rewrite segments_cons. cbn [segmentation_loop advance].
  rewrite decide_True by done.
  pose proof (advance_length (level_dependency entry) entries) as Hshort.
  destruct (advance (level_dependency entry) entries) as [segment tail].
  simpl in *. f_equal. apply IH. lia.
Qed.

Lemma segmentation_loop_concat fuel :
  ∀ entries,
    (length entries ≤ fuel)%nat →
    concat (segmentation_loop fuel entries) = entries.
Proof.
  induction fuel as [|fuel IH]; intros entries Hlen.
  { by destruct entries; [|simpl in Hlen; lia]. }
  destruct entries as [|entry entries]; [done|].
  cbn [segmentation_loop advance]. rewrite decide_True by done.
  pose proof (advance_length (level_dependency entry) entries) as Hshort.
  pose proof (advance_app (level_dependency entry) entries) as Happ.
  destruct (advance (level_dependency entry) entries) as [segment tail].
  simpl in *. rewrite IH by lia. by rewrite Happ.
Qed.

Lemma segments_concat entries : concat (segments entries) = entries.
Proof.
  rewrite <- (segmentation_loop_segments_le (length entries)) by done.
  by apply segmentation_loop_concat.
Qed.

(** X12. The segmentation loop of the [parallel_bf] and [parallel_df] orders
    cuts the depth-ordered list into consecutive ranges: the ranges put
    end to end are the list, no range is empty, the entries of a range
    have one [level_dependency], and the range after it starts with
    another one. The ranges are the [segments] that [apply_pass] queues. *)
Theorem segmentation_loop_partition (fuel : nat) entries :
  (length entries ≤ fuel)%nat →
  segmentation_loop fuel entries = segments entries
  ∧ concat (segmentation_loop fuel entries) = entries
  ∧ Forall (λ segment,
              ∃ entry rest,
                segment = entry :: rest
                ∧ Forall (λ e, level_dependency e = level_dependency entry)
                    rest)
      (segmentation_loop fuel entries)
  ∧ ∀ i seg1 seg2 e1 e2,
      segmentation_loop fuel entries !! i = Some seg1 →
      segmentation_loop fuel entries !! S i = Some seg2 →
      head seg1 = Some e1 → head seg2 = Some e2 →
      level_dependency e1 ≠ level_dependency e2.
Proof.
  intros Hlen.
  split; [by apply segmentation_loop_segments_le|].
  split; [by apply segmentation_loop_concat|].
  revert entries Hlen. induction fuel as [|fuel IH]; intros entries Hlen.
  { split; [constructor|]. intros i seg1 seg2 e1 e2 Hi. done. }
  destruct entries as [|entry entries].
  { split; [constructor|]. intros i seg1 seg2 e1 e2 Hi. done. }
  cbn [segmentation_loop advance]. rewrite decide_True by done.
  pose proof (advance_length (level_dependency entry) entries) as Hshort.
  pose proof (advance_level (level_dependency entry) entries) as Hlevel.
  pose proof (advance_stops (level_dependency entry) entries) as Hstop.
  destruct (advance (level_dependency entry) entries) as [segment tail].
  simpl in *.
  destruct (IH tail) as (Hsegs & Hnext); [lia|].
  split.
  - constructor; [|done]. by exists entry, segment.
  - intros [|i] seg1 seg2 e1 e2 H1 H2 Hh1 Hh2;
      [|exact (Hnext i seg1 seg2 e1 e2 H1 H2 Hh1 Hh2)].
    simpl in H1, H2. injection H1 as <-. simpl in Hh1. injection Hh1 as <-.
    destruct fuel as [|fuel']; [done|].
    destruct tail as [|e tail']; [done|].
    cbn [segmentation_loop advance] in H2.
    rewrite decide_True in H2 by done.
    destruct (advance (level_dependency e) tail') as [s t].
    simpl in H2. injection H2 as <-. simpl in Hh2. injection Hh2 as <-.
    by intros Heq.
Qed.

(** X13. With a scheduler that runs its tasks one after the other, the three
    parallel orders invoke the pass once on each block they are given, in
    the order given: the explored blocks for [parallel], the blocks of the
    depth-ordered list for [parallel_bf] and [parallel_df]; cutting the
    list into segments loses and repeats no block. *)
Theorem apply_pass_parallel_in_order (fuel : nat)
    (opt : @pass_fn state basic_block) (rtn : routine) (st : state) :
  runs_in_order →
  apply_pass fuel parallel opt rtn st
  = invoke_on opt (explored_blocks rtn st) 0%N st
  ∧ apply_pass fuel parallel_bf opt rtn st
    = invoke_on opt (block <$> get_depth_ordered_list rtn true st) 0%N st
  ∧ apply_pass fuel parallel_df opt rtn st
    = invoke_on opt (block <$> get_depth_ordered_list rtn false st) 0%N st.
Proof.
  intros Hsched.
  assert (Hsegs : ∀ entries n st0,
            for_range (segments entries)
              (λ segment n, transform_parallel (block <$> segment)
                              (worker opt) n) n st0
            = invoke_on opt (block <$> entries) n st0).
  { intros entries n st0. unfold invoke_on.
    rewrite <- (segments_concat entries) at 2.
    generalize (segments entries). intros ranges. revert n st0.
    induction ranges as [|range ranges IH]; intros n st0; [done|].
    cbn [for_range concat]. rewrite fmap_app. unfold bind.
    rewrite Hsched.
    revert n st0. induction (block <$> range) as [|b bs IHb]; intros n st0.
    { simpl. apply IH. }
    cbn [for_range app]. unfold bind.
    destruct (worker opt b n st0) as [[n1 st1]| |]; [|done..].
    apply IHb. }
  split_and!.
  - unfold apply_pass. apply Hsched.
  - unfold apply_pass. apply Hsegs.
  - unfold apply_pass. apply Hsegs.
Qed.

End Segmentation.

(** ** [apply_each] *)

Lemma pass_type_nested_ind (P : pass_type → Prop) :
  (∀ id, P (class_type id)) →
  (∀ t args, Forall P args → P (template_id t args)) →
  ∀ compound, P compound.
Proof.
  intros Hclass Htemplate. fix IH 1. intros [id|t args]; [apply Hclass|].
  apply Htemplate. induction args as [|arg args IHargs]; constructor.
  - apply IH.
  - apply IHargs.
Qed.

Lemma apply_each_modified modifier compound :
  apply_each modifier (template_id (other_template modifier) [compound])
  = template_id (other_template modifier) [compound].
Proof. simpl. by rewrite decide_True. Qed.

(** X14. Applying a modifier to each part a second time changes nothing: the
    parts that carry the modifier are left as they are. *)
Theorem apply_each_idempotent (modifier : string) (compound : pass_type) :
  apply_each modifier (apply_each modifier compound)
  = apply_each modifier compound.
Proof.
  induction compound as [id|t args IH] using pass_type_nested_ind.
  { apply apply_each_modified. }
  cbn [apply_each]. destruct (is_compound t) eqn:Ht.
  - cbn [apply_each]. rewrite Ht. f_equal.
    induction IH as [|arg args Harg _ IHargs]; [done|].
    simpl. by rewrite Harg, IHargs.
  - case_decide as Hmod.
    + cbn [apply_each]. rewrite Ht. by rewrite decide_True.
    + apply apply_each_modified.
Qed.

(** ** The fallback of [split_offset] *)

Lemma split_offset_loop_all_fail matcher table exp results0 results :
  all_fail matcher table results0 exp = Some results →
  split_offset_loop matcher table results0 exp = Some (exp, 0).
Proof.
  revert results0. induction table as [|[d s] table IH]; intros results0;
    simpl; [done|].
  destruct (matcher results0 d exp) as [[] results1]; [done|]. apply IH.
Qed.

(** X15. Whatever the matcher and the directive table, when the matcher fails
    on every directive the expression comes back unchanged with the
    offset zero: the loop of [split_offset] reads no table and raises no
    error. *)
Theorem split_offset_fallback
    (matcher : list symbol_table_t → instance → expression
               → bool * list symbol_table_t)
    (table : list (instance * Z)) (exp : expression)
    (results : list symbol_table_t) :
  all_fail matcher table [] exp = Some results →
  split_offset_with matcher table exp = Some (exp, 0).
Proof. apply split_offset_loop_all_fail. Qed.

Lemma split_offset_fallback_witness :
  split_offset_with fast_match directives
    (e_unary op_negate (e_variable "X"))
  = Some (e_unary op_negate (e_variable "X"), 0).
Proof.
  apply (split_offset_fallback fast_match directives
           (e_unary op_negate (e_variable "X")) []).
  reflexivity.
Defined.

(** ** The further properties on concrete routines *)

Lemma acyclic_ranked {basic_block : Type} `{Countable basic_block}
    (links : basic_block → list basic_block) (rank : basic_block → nat) :
  (∀ x y, y ∈ links x → (rank x < rank y)%nat) → acyclic links.
Proof.
  intros Hrank blk Hcycle.
  assert (∀ x y, tc (λ x y, y ∈ links x) x y → (rank x < rank y)%nat) as Htc.
  { intros x y Hxy. induction Hxy as [x y Hxy|x y z Hxy _ IH].
    - by apply Hrank.
    - apply Hrank in Hxy. lia. }
  apply Htc in Hcycle. lia.
Qed.

Ltac solve_closed :=
  let blk := fresh "blk" in
  let link := fresh "link" in
  let Hblk := fresh "Hblk" in
  let Hlink := fresh "Hlink" in
  intros blk link Hblk Hlink;
  apply elem_of_list_to_set in Hblk; apply elem_of_list_to_set;
  repeat (apply elem_of_cons in Hblk as [->|Hblk]);
  [..|by apply elem_of_nil in Hblk];
  vm_compute in Hlink; set_solver.

Lemma cyclic_closed {state : Type} (st : state) :
  ∀ blk link : nat,
    blk ∈ (list_to_set [0; 1; 2; 3]%nat : gset nat) →
    link ∈ next (routine_members := Examples.cyclic) blk st
    ∨ link ∈ prev (routine_members := Examples.cyclic) blk st →
    link ∈ (list_to_set [0; 1; 2; 3]%nat : gset nat).
Proof. solve_closed. Qed.

Lemma diamond_closed {state : Type} (st : state) :
  ∀ blk link : nat,
    blk ∈ (list_to_set [0; 1; 2; 3]%nat : gset nat) →
    link ∈ next (routine_members := MoreExamples.diamond) blk st
    ∨ link ∈ prev (routine_members := MoreExamples.diamond) blk st →
    link ∈ (list_to_set [0; 1; 2; 3]%nat : gset nat).
Proof. solve_closed. Qed.

Lemma diamond_acyclic {state : Type} (st : state) :
  acyclic (links_in (members := MoreExamples.diamond) true st)
  ∧ acyclic (links_in (members := MoreExamples.diamond) false st).
Proof.
  split.
  - apply (acyclic_ranked _ (λ b, b)).
    intros [|[|[|[|x]]]] y Hy; vm_compute in Hy; set_unfold; lia.
  - apply (acyclic_ranked _ (λ b, 4 - b)%nat).
    intros [|[|[|[|x]]]] y Hy; vm_compute in Hy; set_unfold; lia.
Qed.

Lemma apply_pass_bf_no_exit_witness :
  apply_pass (members := MoreExamples.looping) 0 serial_bf
    Examples.log_block tt []
  = Done (0%N, []).
Proof.
  apply (apply_pass_bf_no_exit (members := MoreExamples.looping) 0
           Examples.log_block tt []).
  reflexivity.
Defined.

Lemma idle_pass_through_engine_witness :
  apply_pass (members := Examples.cyclic) 5 serial_df MoreExamples.idle tt
    [7%nat]
  = Done (0%N, [7%nat])
  ∧ apply_pass (members := Examples.cyclic) 5 serial_bf MoreExamples.idle tt
      [7%nat]
    = Done (0%N, [7%nat]).
Proof.
  apply (idle_pass_through_engine (members := Examples.cyclic)
           (list_to_set [0; 1; 2; 3]%nat) MoreExamples.idle tt [7%nat]).
  - vm_compute. set_solver.
  - intros blk. vm_compute. set_solver.
  - apply cyclic_closed.
  - reflexivity.
  - vm_compute. lia.
Defined.

Lemma serial_df_entry_last_witness :
  ∃ earlier : list nat,
    apply_pass (members := Examples.cyclic) 5 serial_df
      Examples.log_block tt []
    = match collect ((λ blk, Examples.log_block blk true)
                       <$> earlier ++ [Examples.blk_A]) [] with
      | Done (ks, st') => Done (size_sum ks, st')
      | Fatal => Fatal
      | OutOfFuel => OutOfFuel
      end.
Proof.
  destruct (serial_df_entry_last (members := Examples.cyclic)
              (list_to_set [0; 1; 2; 3]%nat)
              Examples.log_block tt [])
    as (earlier & _ & _ & Happly).
  - vm_compute. set_solver.
  - intros blk link Hblk Hlink. eapply cyclic_closed; [exact Hblk|by left].
  - apply fixed_routine_keeps_links.
  - exists earlier. apply Happly. vm_compute. lia.
Defined.

(** The routine with the cycle [blk_A → blk_B → blk_C → blk_A] and the
    exit [blk_D], with the logging pass: both serial orders return. *)
Lemma serial_apply_visits_once_witness :
  (∃ r, apply_pass (members := Examples.cyclic) 5 serial_df
          Examples.log_block tt [] = Done r)
  ∧ (∃ r, apply_pass (members := Examples.cyclic) 5 serial_bf
            Examples.log_block tt [] = Done r).
Proof.
  destruct (serial_apply_visits_once (members := Examples.cyclic)
              (list_to_set [0; 1; 2; 3]%nat)
              Examples.log_block tt [])
    as (df_order & bf_order & _ & _ & Happly).
  - vm_compute. set_solver.
  - intros blk. vm_compute. set_solver.
  - apply cyclic_closed.
  - apply fixed_routine_keeps_links.
  - destruct (Happly 5%nat) as (_ & _ & Hret); [vm_compute; lia|].
    apply Hret. intros blk st. by eexists.
Defined.

Lemma serial_orders_follow_links_witness :
  ∃ df_order bf_order : list nat,
    (∀ x y, x ∈ df_order →
            y ∈ next (routine_members := MoreExamples.diamond) x
                  ([] : list nat) →
            passed_before df_order y x)
    ∧ (∀ x y, x ∈ bf_order →
              y ∈ prev (routine_members := MoreExamples.diamond) x
                    ([] : list nat) →
              passed_before bf_order y x)
    ∧ apply_pass (members := MoreExamples.diamond) 5 serial_df
        Examples.log_block tt []
      = invoke_on Examples.log_block df_order 0%N []
    ∧ apply_pass (members := MoreExamples.diamond) 5 serial_bf
        Examples.log_block tt []
      = invoke_on Examples.log_block bf_order 0%N [].
Proof.
  destruct (serial_orders_follow_links (members := MoreExamples.diamond)
              (list_to_set [0; 1; 2; 3]%nat)
              Examples.log_block tt [])
    as (df_order & bf_order & Hdf & Hbf & Happly).
  - vm_compute. set_solver.
  - intros blk. vm_compute. set_solver.
  - apply diamond_closed.
  - apply fixed_routine_keeps_links.
  - apply diamond_acyclic.
  - apply diamond_acyclic.
  - destruct (Happly 5%nat) as [Hdf_apply Hbf_apply]; [vm_compute; lia|].
    exists df_order, bf_order. split_and!; done.
Defined.

Lemma segmentation_loop_partition_witness :
  segmentation_loop 3
    (get_depth_ordered_list (routine_members := MoreExamples.leveled)
       tt true ([] : list nat))
  = [ [ {| level_dependency := 0; block := Examples.blk_A |};
        {| level_dependency := 0; block := Examples.blk_B |} ];
      [ {| level_dependency := 1; block := Examples.blk_C |} ] ]
  ∧ concat
      (segmentation_loop 3
         (get_depth_ordered_list (routine_members := MoreExamples.leveled)
            tt true ([] : list nat)))
    = get_depth_ordered_list (routine_members := MoreExamples.leveled)
        tt true ([] : list nat).
Proof.
  destruct (segmentation_loop_partition (basic_block := nat) 3
              (get_depth_ordered_list
                 (routine_members := MoreExamples.leveled)
                 tt true ([] : list nat)))
    as (Hsegments & Hconcat & _).
  - simpl. lia.
  - split; [|exact Hconcat]. rewrite Hsegments. reflexivity.
Defined.

Lemma apply_pass_parallel_in_order_witness :
  apply_pass (members := MoreExamples.leveled) 0 parallel_bf
    Examples.log_block tt []
  = invoke_on Examples.log_block
      [Examples.blk_A; Examples.blk_B; Examples.blk_C] 0%N [].
Proof.
  apply (apply_pass_parallel_in_order (members := MoreExamples.leveled) 0
           Examples.log_block tt []).
  intros range task n st. reflexivity.
Defined.

(** ** The no-op pass among the combinators *)

Section Neutral.

Context {state basic_block routine : Type}.
Context `{Countable basic_block}.
Context {members : routine_members state basic_block routine}.

Local Abbreviation pass_t := (@pass_interface state basic_block routine).
Implicit Types (Tx : list pass_t).
Implicit Types (blk : basic_block) (rtn : routine) (st : state).

Local Abbreviation on_size_t r :=
  (match r with
   | Done (m, st') => Done ((m mod 2 ^ 64)%N, st')
   | Fatal => Fatal
   | OutOfFuel => OutOfFuel
   end).

(** X4. [nop_pass] is neutral in a [combine_pass], before or after a pass
    [T]: the pair transforms blocks and routines as [T] does, and reports
    the count of [T] (reduced to [size_t]). As the first pass of a
    [conditional_pass] it keeps every other pass from running, and an
    [exhaust_pass] over it returns zero after its first round; in both the
    memory is left as it was. *)
Theorem nop_pass_neutral (T : pass_t) Tx blk (xblock : bool) rtn st
    (fuel : nat) :
  (pass (combine_pass nop_pass [T]) blk xblock st
   = on_size_t (pass T blk xblock st)
   ∧ pass (combine_pass T [nop_pass]) blk xblock st
     = on_size_t (pass T blk xblock st)
   ∧ xpass (combine_pass nop_pass [T]) rtn st = on_size_t (xpass T rtn st)
   ∧ xpass (combine_pass T [nop_pass]) rtn st = on_size_t (xpass T rtn st))
  ∧ (pass (conditional_pass nop_pass T Tx) blk xblock st = Done (0%N, st)
     ∧ xpass (conditional_pass nop_pass T Tx) rtn st = Done (0%N, st))
  ∧ (pass (exhaust_pass (S fuel) (nop_pass : pass_t) []) blk xblock st
     = Done (0%N, st)
     ∧ xpass (exhaust_pass (S fuel) (nop_pass : pass_t) []) rtn st
       = Done (0%N, st)).
Proof.
  split_and!.
  - cbn [pass combine_pass nop_pass]. unfold bind, ret.
    by destruct (pass T blk xblock st) as [[m st']| |].
  - cbn [pass combine_pass nop_pass]. unfold bind, ret.
    destruct (pass T blk xblock st) as [[m st']| |]; [|done..].
    unfold Size.add. by rewrite N.add_0_r.
  - cbn [xpass combine_pass nop_pass]. unfold bind, ret.
    by destruct (xpass T rtn st) as [[m st']| |].
  - cbn [xpass combine_pass nop_pass]. unfold bind, ret.
    destruct (xpass T rtn st) as [[m st']| |]; [|done..].
    unfold Size.add. by rewrite N.add_0_r.
  - by destruct xblock.
  - done.
  - done.
  - done.
Qed.

(** An [exhaust_pass] whose pass sequence reports zero on its first round
    runs that one round and returns zero with the memory the round left:
    the sequence always runs once, and once only when nothing is left to
    do. *)
Theorem exhaust_pass_at_fixpoint (fuel : nat) (T1 : pass_t) Tx blk
    (xblock : bool) rtn st st1 :
  (pass (combine_pass T1 Tx) blk xblock st = Done (0%N, st1) →
   pass (exhaust_pass (S fuel) T1 Tx) blk xblock st = Done (0%N, st1))
  ∧ (xpass (combine_pass T1 Tx) rtn st = Done (0%N, st1) →
     xpass (exhaust_pass (S fuel) T1 Tx) rtn st = Done (0%N, st1)).
Proof.
  split; intros Hround; cbn [pass xpass exhaust_pass exhaust_loop];
    unfold bind; by rewrite Hround.
Qed.

End Neutral.

Lemma exhaust_pass_at_fixpoint_witness :
  pass (exhaust_pass 1 Examples.countdown []) Examples.blk_A false 0%N
  = Done (0%N, 0%N).
Proof.
  apply (proj1 (exhaust_pass_at_fixpoint 0 Examples.countdown []
                  Examples.blk_A false tt 0%N 0%N)).
  reflexivity.
Defined.

(** ** A pass that edits the links *)

Section SerialBudget.

Context {state basic_block routine : Type}.
Context `{Countable basic_block}.
Context {members : routine_members state basic_block routine}.

Lemma rec_budget (work : basic_block → N → computation state N) fwd fuel :
  ∀ fuel' blk acc st,
    (fuel ≤ fuel')%nat →
    rec fuel work blk fwd acc st ≠ OutOfFuel →
    rec fuel' work blk fwd acc st = rec fuel work blk fwd acc st.
Proof.
  induction fuel as [|fuel IH]; intros fuel' blk [visited n] st Hle Hend;
    [done|].
  destruct fuel' as [|fuel']; [lia|].
  cbn [rec] in Hend |- *.
  destruct (decide (blk ∈ visited)); [done|].
  assert (Hloop : ∀ links acc0 st0,
            for_range links (λ link acc, rec fuel work link fwd acc) acc0 st0
            ≠ OutOfFuel →
            for_range links (λ link acc, rec fuel' work link fwd acc) acc0 st0
            = for_range links (λ link acc, rec fuel work link fwd acc)
                acc0 st0).
  { induction links as [|link links IHl]; intros acc0 st0 Hloop; [done|].
    cbn [for_range] in Hloop |- *. unfold bind in Hloop |- *.
    rewrite (IH fuel' link acc0 st0) by
      (first [lia | intros Hout; by rewrite Hout in Hloop]).
    destruct (rec fuel work link fwd acc0 st0) as [[acc1 st1]| |];
      [|done..].
    by apply IHl. }
  unfold bind in Hend |- *.
  rewrite Hloop; [done|].
  intros Hout. by rewrite Hout in Hend.
Qed.

Lemma apply_pass_serial_budget fuel fuel'
    (opt : @pass_fn state basic_block) (rtn : routine) (st : state) :
  (fuel ≤ fuel')%nat →
  (apply_pass fuel serial_df opt rtn st ≠ OutOfFuel →
   apply_pass fuel' serial_df opt rtn st = apply_pass fuel serial_df opt rtn st)
  ∧ (apply_pass fuel serial_bf opt rtn st ≠ OutOfFuel →
     apply_pass fuel' serial_bf opt rtn st
     = apply_pass fuel serial_bf opt rtn st).
Proof.
  intros Hle. unfold apply_pass. simpl. unfold bind. split; intros Hend.
  - rewrite (rec_budget _ true fuel fuel'); [done|done|].
    intros Hout. by rewrite Hout in Hend.
  - assert (Hloop : ∀ exits acc0 st0,
              for_range exits
                (λ exit acc, rec fuel (worker opt) exit false acc) acc0 st0
              ≠ OutOfFuel →
              for_range exits
                (λ exit acc, rec fuel' (worker opt) exit false acc) acc0 st0
              = for_range exits
                  (λ exit acc, rec fuel (worker opt) exit false acc)
                  acc0 st0).
    { induction exits as [|exit exits IHl]; intros acc0 st0 Hloop; [done|].
      cbn [for_range] in Hloop |- *. unfold bind in Hloop |- *.
      rewrite (rec_budget _ false fuel fuel' exit acc0 st0) by
        (first [lia | intros Hout; by rewrite Hout in Hloop]).
      destruct (rec fuel (worker opt) exit false acc0 st0)
        as [[acc1 st1]| |]; [|done..].
      by apply IHl. }
    rewrite Hloop; [done|].
    intros Hout. by rewrite Hout in Hend.
Qed.

End SerialBudget.

(** A pass that cuts a link during the walk. At the call [blk_D] can be
    reached from the entry through [blk_C], and [blk_C] from the exit
    [blk_D]; the pass on [blk_B] cuts the link between them before the
    walk reads it, so the depth-first [apply_pass] never passes [blk_D]
    and the breadth-first one never passes [blk_C], whatever the
    budget. *)
Lemma serial_apply_skips_cut_off_block :
  reachable (links_in (members := MoreExamples.cutting) true (false, []))
    [Examples.blk_A] Examples.blk_D
  ∧ reachable (links_in (members := MoreExamples.cutting) false (false, []))
      (get_exits (routine_members := MoreExamples.cutting) tt (false, []))
      Examples.blk_C
  ∧ apply_pass (members := MoreExamples.cutting) 4 serial_df
      MoreExamples.cut_link tt (false, [])
    = Done (3%N, (true, [Examples.blk_B; Examples.blk_C; Examples.blk_A]))
  ∧ apply_pass (members := MoreExamples.cutting) 4 serial_bf
      MoreExamples.cut_link tt (false, [])
    = Done (3%N, (true, [Examples.blk_A; Examples.blk_B; Examples.blk_D]))
  ∧ ¬ (∃ (fuel : nat) (n : N) (st' : bool * list nat),
         apply_pass (members := MoreExamples.cutting) fuel serial_df
           MoreExamples.cut_link tt (false, [])
         = Done (n, st')
         ∧ Examples.blk_D ∈ st'.2)
  ∧ ¬ (∃ (fuel : nat) (n : N) (st' : bool * list nat),
         apply_pass (members := MoreExamples.cutting) fuel serial_bf
           MoreExamples.cut_link tt (false, [])
         = Done (n, st')
         ∧ Examples.blk_C ∈ st'.2).
Proof.
  split_and!.
  - exists Examples.blk_A. split; [set_solver|].
    eapply (rtc_l _ _ Examples.blk_C); [vm_compute; set_solver|].
    apply rtc_once. vm_compute. set_solver.
  - exists Examples.blk_D. split; [vm_compute; set_solver|].
    apply rtc_once. vm_compute. set_solver.
  - reflexivity.
  - reflexivity.
  - intros (fuel & n & st' & Hrun & Hin).
    destruct (decide (fuel < 4)%nat) as [Hsmall|Hlarge].
    + destruct fuel as [|[|[|[|fuel]]]]; [..|lia];
        vm_compute in Hrun; try discriminate;
        injection Hrun as _ <-; set_solver.
    + rewrite (proj1 (apply_pass_serial_budget
                        (members := MoreExamples.cutting) 4 fuel
                        MoreExamples.cut_link tt (false, []) ltac:(lia)))
        in Hrun by discriminate.
      vm_compute in Hrun. injection Hrun as _ <-. set_solver.
  - intros (fuel & n & st' & Hrun & Hin).
    destruct (decide (fuel < 4)%nat) as [Hsmall|Hlarge].
    + destruct fuel as [|[|[|[|fuel]]]]; [..|lia];
        vm_compute in Hrun; try discriminate;
        injection Hrun as _ <-; set_solver.
    + rewrite (proj2 (apply_pass_serial_budget
                        (members := MoreExamples.cutting) 4 fuel
                        MoreExamples.cut_link tt (false, []) ltac:(lia)))
        in Hrun by discriminate.
      vm_compute in Hrun. injection Hrun as _ <-. set_solver.
Qed.

(** A round whose counts add up to [2^64] reports zero on [size_t]: the
    exhaust combinator over two passes that report [2^64 - 1] and [1]
    returns zero after one round, although neither pass reports zero. *)
Lemma exhaust_pass_wrapped_round :
  pass (exhaust_pass 1 (MoreExamples.reports (2 ^ 64 - 1))
          [MoreExamples.reports 1]) Examples.blk_A false tt
  = Done (0%N, tt)
  ∧ xpass (exhaust_pass 1 (MoreExamples.reports (2 ^ 64 - 1))
             [MoreExamples.reports 1]) tt tt
    = Done (0%N, tt).
Proof. split; reflexivity. Qed.
